(** * girc: connection supervisor and handler registry

    A shallow embedding of [client.go] and [handler.go].

    - [GoLib]     the pieces of the Go standard library the two files call
                  ([strings.ToUpper], [fmt.Sscanf] for the verbs used).
    - [Registry]  [handler.go]: the [Caller] with its two handler maps.
    - [Dispatch]  [Caller.exec]: what each launched handler receives.
    - [Supervisor] [client.go]: connect, cleanup, quit, reconnect, the
                  status queries and the command builders.
    - [RegistryFacts], [DispatchFacts] further properties of the registry
                  and of the dispatch.

    The embedding is sequential: one call runs to completion before the
    next starts, so the mutexes of the source do not appear.  Every effect
    the source has on the outside world (dialling, closing a connection,
    sleeping, handing an event to the encoder, cancelling a context,
    starting a goroutine) is appended to a trace. *)

From Stdlib Require Import ZArith Ascii Lia.
From stdpp Require Import gmap strings list fin_maps pretty.

Local Open Scope Z_scope.

(* ===================================================================== *)
(** ** The Go standard library, as far as the sources use it *)
(* ===================================================================== *)

Module GoLib.

(** [len(s)] of a Go string: its number of bytes. *)
Definition len (s : string) : Z := Z.of_nat (String.length s).

(** [strings.ToUpper] on strings of ASCII bytes, where it maps the
    bytes [a]..[z] to [A]..[Z] and keeps every other byte.  On other
    strings [strings.ToUpper] maps every Unicode letter and rewrites
    invalid UTF-8, which this definition does not follow: what is said
    below of the upper-cased command is said of the strings that satisfy
    [ascii_only]. *)
Definition upper_ascii (a : ascii) : ascii :=
  let n := nat_of_ascii a in
  if ((97 <=? n) && (n <=? 122))%nat then ascii_of_nat (n - 32) else a.

Fixpoint ToUpper (s : string) : string :=
  match s with
  | EmptyString => EmptyString
  | String a r => String (upper_ascii a) (ToUpper r)
  end.

(** The strings of bytes below 128. *)
Definition is_ascii (a : ascii) : bool := (nat_of_ascii a <? 128)%nat.

Fixpoint ascii_only (s : string) : bool :=
  match s with
  | EmptyString => true
  | String a r => is_ascii a && ascii_only r
  end.

(** [fmt]'s [isSpace], restricted to one-byte runes: tab, line feed,
    vertical tab, form feed, carriage return and space. *)
Definition isSpace (a : ascii) : bool :=
  let n := nat_of_ascii a in
  (((9 <=? n) && (n <=? 13)) || (n =? 32))%nat.

Definition is_newline (a : ascii) : bool := (nat_of_ascii a =? 10)%nat.
Definition is_return (a : ascii) : bool := (nat_of_ascii a =? 13)%nat.

Definition peek_newline (s : string) : bool :=
  match s with
  | String b _ => is_newline b
  | EmptyString => false
  end.

(** [ss.SkipSpace] with [nlIsSpace = false], as [Sscanf] runs it:
    [None] is the "unexpected newline" error. *)
Fixpoint SkipSpace (s : string) : option string :=
  match s with
  | EmptyString => Some EmptyString
  | String a r =>
      if is_return a && peek_newline r then SkipSpace r
      else if is_newline a then None
      else if isSpace a then SkipSpace r
      else Some s
  end.

(** [ss.token(_, notSpace)]: the longest prefix without a space, and
    what is left of the input. *)
Fixpoint token (s : string) : string * string :=
  match s with
  | EmptyString => (EmptyString, EmptyString)
  | String a r =>
      if isSpace a then (EmptyString, s)
      else let '(t, rest) := token r in (String a t, rest)
  end.

(** [ss.convertString] for the verb [%s]: skip spaces, fail at the end
    of the input, read one token. *)
Definition convertString (s : string) : option (string * string) :=
  match SkipSpace s with
  | None => None
  | Some EmptyString => None
  | Some s1 => Some (token s1)
  end.

(** A format made of [%s] verbs and literal characters that are neither
    spaces nor [%]. *)
Inductive directive : Type :=
| Verb_s
| Literal (a : ascii).

(** [ss.doScanf]: the operands stored before the scan ends.  A scan
    that fails keeps what it stored so far. *)
Fixpoint doScanf (fmt : list directive) (input : string) : list string :=
  match fmt with
  | [] => []
  | Verb_s :: fmt' =>
      match convertString input with
      | None => []
      | Some (tok, rest) => tok :: doScanf fmt' rest
      end
  | Literal a :: fmt' =>
      match input with
      | EmptyString => []
      | String b rest =>
          if Ascii.eqb a b then doScanf fmt' rest else []
      end
  end.

Lemma token_rest (s : string) :
  snd (token s) = EmptyString ∨
  ∃ a r, snd (token s) = String a r ∧ isSpace a = true.
Proof.
  induction s as [|a r IH]; simpl; [by left|].
  destruct (isSpace a) eqn:Ha; simpl.
  - right. by exists a, r.
  - destruct (token r) as [t rest]. exact IH.
Qed.

Lemma token_nonempty (a : ascii) (r : string) :
  isSpace a = false → fst (token (String a r)) ≠ EmptyString.
Proof.
  intros Ha. simpl. rewrite Ha. by destruct (token r).
Qed.

(** A literal that is not a space never matches right after a [%s]. *)
Lemma doScanf_literal_after_token (lit : ascii) (fmt : list directive) (s : string) :
  isSpace lit = false →
  doScanf (Literal lit :: fmt) (snd (token s)) = [].
Proof.
  intros Hlit. destruct (token_rest s) as [->|(a & r & -> & Ha)]; simpl; [done|].
  destruct (Ascii.eqb lit a) eqn:E; [|done].
  apply Ascii.eqb_eq in E. congruence.
Qed.

Lemma doScanf_s_lit_length (lit : ascii) (fmt : list directive) (input : string) :
  isSpace lit = false →
  (length (doScanf (Verb_s :: Literal lit :: fmt) input) <= 1)%nat.
Proof.
  intros Hlit.
  change (doScanf (Verb_s :: Literal lit :: fmt) input)
    with (match convertString input with
          | None => []
          | Some (tok, rest) => tok :: doScanf (Literal lit :: fmt) rest
          end).
  destruct (convertString input) as [[tok rest]|] eqn:E; [|simpl; lia].
  assert (∃ s, token s = (tok, rest)) as [s Hs].
  { unfold convertString in E.
    destruct (SkipSpace input) as [[|a r]|]; try discriminate.
    exists (String a r). congruence. }
  pose proof (doScanf_literal_after_token lit fmt s Hlit) as H.
  rewrite Hs in H. cbn [snd] in H. rewrite H. simpl. lia.
Qed.

End GoLib.

(* ===================================================================== *)
(** ** handler.go: the handler registry *)
(* ===================================================================== *)

Module Registry.
Import GoLib.

Section WithHandler.
(** The [Handler] interface: the registry stores handlers and never
    looks inside one. *)
Context {Handler : Type}.

(** [Caller]: [external] and [internal] are
    [map[COMMAND][CUID]Handler]. *)
Record Caller : Type := mkCaller {
  external : gmap string (gmap string Handler);
  internal : gmap string (gmap string Handler)
}.

Definition newCaller : Caller := mkCaller ∅ ∅.

(** [Caller.Len]: the number of user-entered handlers. *)
Definition Len (c : Caller) : nat :=
  map_fold (fun _ hs total => (total + size hs)%nat) 0%nat (external c).

(** [Caller.Count]: the loop adds [len(c.external[command])] for the
    one key equal to the upper-cased [cmd]. *)
Definition Count (c : Caller) (cmd : string) : nat :=
  map_fold (fun command hs total =>
              if decide (command = ToUpper cmd)
              then (total + size hs)%nat else total)
           0%nat (external c).

Definition letterBytes : string :=
  "abcdefghijklmnopqrstuvwxyzABCDEFGHIJKLMNOPQRSTUVWXYZ".

(** [letterBytes[r % len(letterBytes)]] for a draw [r] of
    [rand.Int63], which is never negative. *)
Definition letter (r : Z) : ascii :=
  match String.get (Z.to_nat (r mod len letterBytes)) letterBytes with
  | Some a => a
  | None => "a"%char
  end.

Fixpoint string_of_bytes (l : list ascii) : string :=
  match l with
  | [] => EmptyString
  | a :: r => String a (string_of_bytes r)
  end.

(** [Caller.cuid]: [rnd i] is the i-th draw of [rand.Int63] made by
    this call. *)
Definition cuid (rnd : nat → Z) (cmd : string) (n : nat) : string * string :=
  let b := string_of_bytes ((fun i => letter (rnd i)) <$> seq 0 n) in
  (cmd +:+ ":" +:+ b, b).

(** [Caller.cuidToID]: [fmt.Sscanf(input, "%s:%s", &cmd, &uid)], the
    error dropped, both results empty unless stored. *)
Definition cuidToID (input : string) : string * string :=
  let stored := doScanf [Verb_s; Literal ":"; Verb_s] input in
  (nth 0 stored EmptyString, nth 1 stored EmptyString).

(** [execStack]: a handler with the key it was found under. *)
Record execStack : Type := mkExecStack {
  stackHandler : Handler;
  stackCuid : string
}.

Definition stack_of (hs : option (gmap string Handler)) : list execStack :=
  match hs with
  | Some m => (fun kv => mkExecStack kv.2 kv.1) <$> map_to_list m
  | None => []
  end.

(** The stack [Caller.exec] builds under the read lock: the internal
    handlers of [command], then the external ones. *)
Definition exec_stack (c : Caller) (command : string) : list execStack :=
  stack_of (internal c !! command) ++ stack_of (external c !! command).

Definition ClearAll (c : Caller) : Caller := mkCaller ∅ (internal c).
Definition clearInternal (c : Caller) : Caller := mkCaller (external c) ∅.

Definition Clear (c : Caller) (cmd : string) : Caller :=
  mkCaller (delete (ToUpper cmd) (external c)) (internal c).

(** [Caller.remove]. *)
Definition remove (c : Caller) (cuid : string) : Caller * bool :=
  let '(cmd, uid) := cuidToID cuid in
  if (len cmd =? 0) || (len uid =? 0) then (c, false)
  else
    match external c !! cmd with
    | None => (c, false)
    | Some hs =>
        match hs !! cuid with
        | None => (c, false)
        | Some _ =>
            (mkCaller (<[cmd := delete uid hs]> (external c)) (internal c),
             true)
        end
    end.

Definition Remove (c : Caller) (cuid : string) : Caller * bool :=
  remove c cuid.

Definition handlers_of (m : gmap string (gmap string Handler)) (cmd : string)
  : gmap string Handler :=
  match m !! cmd with
  | Some hs => hs
  | None => ∅
  end.

(** [Caller.register]. *)
Definition register (rnd : nat → Z) (is_internal : bool) (cmd : string)
    (handler : Handler) (c : Caller) : Caller * string :=
  let cmd := ToUpper cmd in
  let '(cuid, uid) := cuid rnd cmd 20 in
  if is_internal then
    (mkCaller (external c)
              (<[cmd := <[uid := handler]> (handlers_of (internal c) cmd)]>
                 (internal c)),
     cuid)
  else
    (mkCaller (<[cmd := <[uid := handler]> (handlers_of (external c) cmd)]>
                 (external c))
              (internal c),
     cuid).

Definition sregister := register.

Definition AddHandler (rnd : nat → Z) (cmd : string) (handler : Handler)
    (c : Caller) : Caller * string :=
  sregister rnd false cmd handler c.

(** *** What [remove] does *)

Lemma cuidToID_uid_empty (input : string) : (cuidToID input).2 = EmptyString.
Proof.
  unfold cuidToID. cbn [snd].
  pose proof (doScanf_s_lit_length ":" [Verb_s] input eq_refl) as H.
  destruct (doScanf [Verb_s; Literal ":"; Verb_s] input) as [|x [|y l]];
    simpl in *; try done; lia.
Qed.

Lemma remove_never_succeeds (c : Caller) (id : string) :
  remove c id = (c, false).
Proof.
  unfold remove. pose proof (cuidToID_uid_empty id) as H.
  destruct (cuidToID id) as [cmd uid]. simpl in H. subst uid.
  by rewrite orb_true_r.
Qed.

Lemma remove_keeps_internal (c : Caller) (id : string) :
  internal (remove c id).1 = internal c.
Proof.
  unfold remove. destruct (cuidToID id) as [cmd uid].
  destruct (_ || _); [done|].
  destruct (external c !! cmd) as [hs|]; [|done].
  by destruct (hs !! id).
Qed.

Lemma remove_false_unchanged (c c' : Caller) (id : string) :
  remove c id = (c', false) → c' = c.
Proof.
  unfold remove. destruct (cuidToID id) as [cmd uid].
  destruct (_ || _); [congruence|].
  destruct (external c !! cmd) as [hs|]; [|congruence].
  destruct (hs !! id); congruence.
Qed.

Lemma register_external_lookup (rnd : nat → Z) (cmd : string)
    (h : Handler) (c : Caller) :
  handlers_of (external (register rnd false cmd h c).1) (ToUpper cmd)
    !! (cuid rnd (ToUpper cmd) 20).2 = Some h.
Proof.
  unfold register, cuid, handlers_of. cbn [fst snd external].
  rewrite lookup_insert_eq. by rewrite lookup_insert_eq.
Qed.

Lemma stack_of_lookup (m : gmap string Handler) (uid : string) (h : Handler) :
  m !! uid = Some h → mkExecStack h uid ∈ stack_of (Some m).
Proof.
  intros H. unfold stack_of. apply list_elem_of_fmap.
  exists (uid, h). split; [done|]. by apply elem_of_map_to_list.
Qed.

Lemma register_in_exec_stack (rnd : nat → Z) (cmd : string)
    (h : Handler) (c : Caller) :
  mkExecStack h (cuid rnd (ToUpper cmd) 20).2
    ∈ exec_stack (register rnd false cmd h c).1 (ToUpper cmd).
Proof.
  unfold exec_stack. apply elem_of_app. right.
  pose proof (register_external_lookup rnd cmd h c) as H.
  unfold handlers_of in H.
  destruct (external (register rnd false cmd h c).1 !! ToUpper cmd) as [m|].
  - by apply stack_of_lookup.
  - by rewrite lookup_empty in H.
Qed.

End WithHandler.

Arguments Caller : clear implicits.
Arguments execStack : clear implicits.

(** C3: a handler registered in the external registry and then removed
    by the identifier that registration returned: [Remove] answers
    false, the registry is the one before the call, and the handler is
    still on the stack [exec] builds for its command. *)
Theorem Remove_of_registered_id_fails (Handler : Type) (rnd : nat → Z)
    (cmd : string) (h : Handler) (c : Caller Handler) :
  let registered := register rnd false cmd h c in
  Remove registered.1 registered.2 = (registered.1, false)
  ∧ mkExecStack h (cuid rnd (ToUpper cmd) 20).2
      ∈ exec_stack (Remove registered.1 registered.2).1 (ToUpper cmd).
Proof.
  intros registered. unfold Remove.
  rewrite remove_never_succeeds. split; [done|].
  apply register_in_exec_stack.
Qed.

(** The same on one concrete registration: handler 7 under "privmsg". *)
Example Remove_privmsg_example :
  let rnd := fun i : nat => Z.of_nat i in
  let registered := register rnd false "privmsg" 7%nat newCaller in
  registered.2 = "PRIVMSG:abcdefghijklmnopqrst"
  ∧ (Remove registered.1 registered.2).2 = false
  ∧ stackHandler <$> exec_stack (Remove registered.1 registered.2).1 "PRIVMSG"
    = [7%nat].
Proof.
  cbv zeta. split; [reflexivity|]. unfold Remove.
  rewrite remove_never_succeeds. split; [reflexivity|].
  vm_compute. reflexivity.
Qed.

End Registry.

(* ===================================================================== *)
(** ** Events *)
(* ===================================================================== *)

Module Events.

(** Modelled from the spec: the [Event] struct (its declaration is not
    among the sources): a command, the positional parameters, the
    trailing text and the sensitivity flag.  [P] is how the parameters
    are held: [list string] for an event taken as a value, a slice
    header for an event that lives in memory. *)
Record EventOf (P : Type) : Type := mkEvent {
  Command : string;
  Params : P;
  Trailing : string;
  Sensitive : bool
}.

Arguments mkEvent {P} _ _ _ _.
Arguments Command {P} _.
Arguments Params {P} _.
Arguments Trailing {P} _.
Arguments Sensitive {P} _.

Abbreviation Event := (EventOf (list string)) (only parsing).

(** Modelled from the spec: the command names the two files use (the
    constants are declared in a file that is not among the sources). *)
Definition JOIN : string := "JOIN".
Definition QUIT : string := "QUIT".
Definition NICK : string := "NICK".
Definition USER : string := "USER".
Definition PASS : string := "PASS".
Definition INITIALIZED : string := "INIT".
Definition DISCONNECTED : string := "DISCONNECTED".
Definition STOPPED : string := "STOPPED".

(** [&Event{Command: c, Params: ps, Trailing: t}]. *)
Definition event (c : string) (ps : list string) (t : string) : Event :=
  mkEvent c ps t false.

End Events.

(* ===================================================================== *)
(** ** handler.go: what [exec] hands to each handler *)
(* ===================================================================== *)

Module Dispatch.
Import Events.

(** The address of the backing array of a [[]string]. *)
Abbreviation loc := positive (only parsing).

(** A slice header: [None] is the nil slice, [Some p] the array at
    [p], seen whole. *)
Abbreviation slice := (option positive) (only parsing).

(** An [Event] value as Go holds it: the strings by value, the
    parameters behind a slice header. *)
Abbreviation MemEvent := (EventOf (option positive)) (only parsing).

(** The arrays in memory, and for each goroutine [exec] started the
    argument [e] its handler received. *)
Record ExecState : Type := mkExecState {
  store : gmap loc (list string);
  args : list MemEvent
}.

(** [exec]: [go func(index int) { stack[index].Execute(client, *event) }(i)]
    for every entry of the stack.  Each call evaluates [*event]: a copy
    of the struct the pointer leads to. *)
Definition launch {H : Type} (stack : list H) (event : MemEvent)
    (mem : gmap loc (list string)) : ExecState :=
  mkExecState mem ((fun _ => event) <$> stack).

(** What a handler may do to its argument [e]. *)
Inductive action : Type :=
| SetCommand (s : string)             (* e.Command = s *)
| SetTrailing (s : string)            (* e.Trailing = s *)
| SetSensitive (b : bool)             (* e.Sensitive = b *)
| SetParams (l : list string)         (* e.Params = []string{...} *)
| SetParam (i : nat) (s : string).    (* e.Params[i] = s *)

(** The assignments to a field of [e], as opposed to a store through
    the slice. *)
Definition field_assignment (a : action) : bool :=
  match a with
  | SetParam _ _ => false
  | _ => true
  end.

(** One action of handler [k]; [None] is a run-time panic (index out
    of range) or a handler that was never started. *)
Definition step (k : nat) (a : action) (st : ExecState) : option ExecState :=
  match args st !! k with
  | None => None
  | Some e =>
      match a with
      | SetCommand s =>
          Some (mkExecState (store st)
                  (<[k := mkEvent s (Params e) (Trailing e) (Sensitive e)]> (args st)))
      | SetTrailing s =>
          Some (mkExecState (store st)
                  (<[k := mkEvent (Command e) (Params e) s (Sensitive e)]> (args st)))
      | SetSensitive b =>
          Some (mkExecState (store st)
                  (<[k := mkEvent (Command e) (Params e) (Trailing e) b]> (args st)))
      | SetParams l =>
          let p := fresh (dom (store st)) in
          Some (mkExecState (<[p := l]> (store st))
                  (<[k := mkEvent (Command e) (Some p) (Trailing e) (Sensitive e)]>
                     (args st)))
      | SetParam i s =>
          match Params e with
          | None => None
          | Some p =>
              match store st !! p with
              | None => None
              | Some arr =>
                  if (i <? length arr)%nat
                  then Some (mkExecState (<[p := <[i := s]> arr]> (store st)) (args st))
                  else None
              end
          end
      end
  end.

(** A schedule: which handler acts, in the order the actions happen. *)
Fixpoint run (sched : list (nat * action)) (st : ExecState) : option ExecState :=
  match sched with
  | [] => Some st
  | (k, a) :: rest =>
      match step k a st with
      | None => None
      | Some st' => run rest st'
      end
  end.

Definition read_params (mem : gmap loc (list string)) (p : slice)
  : option (list string) :=
  match p with
  | None => Some []
  | Some l => mem !! l
  end.

(** What handler [k] reads when it looks at its argument. *)
Definition observe (k : nat) (st : ExecState) : option Event :=
  match args st !! k with
  | None => None
  | Some e =>
      match read_params (store st) (Params e) with
      | None => None
      | Some ps => Some (mkEvent (Command e) ps (Trailing e) (Sensitive e))
      end
  end.

(** Every slice held by a handler leads to an array in memory. *)
Definition allocated (st : ExecState) : Prop :=
  ∀ k e p, args st !! k = Some e → Params e = Some p → is_Some (store st !! p).

Definition event_allocated (mem : gmap loc (list string)) (e : MemEvent) : Prop :=
  ∀ p, Params e = Some p → is_Some (mem !! p).

(** The schedule restricted to handler [j]. *)
Definition own (j : nat) (sched : list (nat * action)) : list (nat * action) :=
  filter (fun ka => ka.1 = j) sched.

Definition only_field_assignments (sched : list (nat * action)) : Prop :=
  Forall (fun ka => field_assignment ka.2 = true) sched.

(** *** Frame lemmas for one action *)

Lemma fresh_not_allocated (mem : gmap loc (list string)) :
  mem !! fresh (dom mem) = None.
Proof. apply not_elem_of_dom. apply is_fresh. Qed.

Lemma read_params_insert_fresh (mem : gmap loc (list string))
    (l : list string) (q : slice) :
  (∀ p, q = Some p → is_Some (mem !! p)) →
  read_params (<[fresh (dom mem) := l]> mem) q = read_params mem q.
Proof.
  intros Hq. destruct q as [p|]; [|done]. simpl.
  apply lookup_insert_ne. intros E.
  destruct (Hq p eq_refl) as [x Hx].
  rewrite <- E in Hx. rewrite fresh_not_allocated in Hx. discriminate.
Qed.

Lemma observe_insert_other (j k : nat) (e : MemEvent)
    (mem : gmap loc (list string)) (l : list MemEvent) :
  k ≠ j →
  observe j (mkExecState mem (<[k := e]> l)) = observe j (mkExecState mem l).
Proof.
  intros Hne. unfold observe. cbn [args store].
  by rewrite list_lookup_insert_ne.
Qed.

Lemma observe_insert_self (j : nat) (e e0 : MemEvent)
    (mem : gmap loc (list string)) (l : list MemEvent) :
  l !! j = Some e0 →
  observe j (mkExecState mem (<[j := e]> l))
  = match read_params mem (Params e) with
    | None => None
    | Some ps => Some (mkEvent (Command e) ps (Trailing e) (Sensitive e))
    end.
Proof.
  intros Hj. unfold observe. cbn [args store].
  rewrite list_lookup_insert_eq; [done|]. by eapply lookup_lt_Some.
Qed.

Lemma observe_store_fresh (j : nat) (st : ExecState) (l : list string) :
  allocated st →
  observe j (mkExecState (<[fresh (dom (store st)) := l]> (store st)) (args st))
  = observe j st.
Proof.
  intros Hal. unfold observe. cbn [args store].
  destruct (args st !! j) as [e|] eqn:Hj; [|done].
  rewrite read_params_insert_fresh; [done|].
  intros p Hp. by eapply Hal.
Qed.

Lemma allocated_insert (st : ExecState) (k : nat) (e0 e : MemEvent) :
  allocated st →
  args st !! k = Some e0 →
  Params e = Params e0 →
  allocated (mkExecState (store st) (<[k := e]> (args st))).
Proof.
  intros Hal Hk HP k' e' p. cbn [args store].
  destruct (decide (k = k')) as [<-|Hne].
  - rewrite list_lookup_insert_eq by (by eapply lookup_lt_Some).
    intros [= <-] Hp. eapply Hal; [exact Hk|]. by rewrite <- HP.
  - rewrite list_lookup_insert_ne by done. apply Hal.
Qed.

Lemma step_allocated (k : nat) (a : action) (st st' : ExecState) :
  allocated st → step k a st = Some st' → allocated st'.
Proof.
  intros Hal. unfold step.
  destruct (args st !! k) as [e|] eqn:Hk; [|done].
  destruct a as [s|s|b|l|i s].
  - intros [= <-]. by eapply allocated_insert.
  - intros [= <-]. by eapply allocated_insert.
  - intros [= <-]. by eapply allocated_insert.
  - intros [= <-]. intros k' e' p. cbn [args store].
    destruct (decide (k = k')) as [<-|Hne].
    + rewrite list_lookup_insert_eq by (by eapply lookup_lt_Some).
      intros [= <-]. cbn [Params]. intros [= <-].
      rewrite lookup_insert_eq. by eexists.
    + rewrite list_lookup_insert_ne by done. intros He' Hp.
      destruct (Hal k' e' p He' Hp) as [x Hx].
      destruct (decide (fresh (dom (store st)) = p)) as [E|E].
      * rewrite <- E in Hx. by rewrite fresh_not_allocated in Hx.
      * rewrite lookup_insert_ne by done. by eexists.
  - destruct (Params e) as [p|] eqn:Hp; [|done].
    destruct (store st !! p) as [arr|] eqn:Harr; [|done].
    destruct (i <? length arr)%nat; [|done].
    intros [= <-]. intros k' e' q. cbn [args store]. intros He' Hq.
    destruct (decide (p = q)) as [<-|Hne].
    + rewrite lookup_insert_eq. by eexists.
    + rewrite lookup_insert_ne by done. by eapply Hal.
Qed.

(** An assignment by handler [k] to a field of its own argument leaves
    what handler [j] reads as it was. *)
Lemma step_other_observe (j k : nat) (a : action) (st st' : ExecState) :
  k ≠ j →
  field_assignment a = true →
  allocated st →
  step k a st = Some st' →
  observe j st' = observe j st.
Proof.
  intros Hne Hfa Hal. unfold step.
  destruct (args st !! k) as [e|] eqn:Hk; [|done].
  destruct a as [s|s|b|l|i s]; try discriminate; intros [= <-].
  - rewrite observe_insert_other by done. by destruct st.
  - rewrite observe_insert_other by done. by destruct st.
  - rewrite observe_insert_other by done. by destruct st.
  - rewrite observe_insert_other by done. by apply observe_store_fresh.
Qed.

Lemma observe_Some_args (j : nat) (st : ExecState) (v : Event) :
  observe j st = Some v →
  ∃ e, args st !! j = Some e ∧ read_params (store st) (Params e) = Some (Params v)
       ∧ Command e = Command v ∧ Trailing e = Trailing v
       ∧ Sensitive e = Sensitive v.
Proof.
  unfold observe. destruct (args st !! j) as [e|]; [|done].
  destruct (read_params (store st) (Params e)) as [ps|] eqn:Hr; [|done].
  intros [= <-]. exists e. by repeat split.
Qed.

Lemma observe_args_allocated (j : nat) (st : ExecState) (e : MemEvent) :
  allocated st → args st !! j = Some e → is_Some (observe j st).
Proof.
  intros Hal Hj. unfold observe. rewrite Hj.
  destruct (Params e) as [p|] eqn:Hp; simpl.
  - destruct (Hal j e p Hj Hp) as [x ->]. by eexists.
  - by eexists.
Qed.

(** Handler [j] does the same assignment in two states in which it reads
    the same event: it reads the same event afterwards. *)
Lemma step_self_observe (j : nat) (a : action) (st1 st2 st1' : ExecState) :
  field_assignment a = true →
  allocated st1 → allocated st2 →
  observe j st1 = observe j st2 →
  step j a st1 = Some st1' →
  ∃ st2', step j a st2 = Some st2' ∧ observe j st1' = observe j st2'.
Proof.
  intros Hfa Hal1 Hal2 Hobs. unfold step.
  destruct (args st1 !! j) as [e1|] eqn:H1; [|done].
  destruct (observe_args_allocated j st1 e1 Hal1 H1) as [v Hv].
  destruct (observe_Some_args j st1 v Hv) as (e1' & He1 & Hr1 & Hc1 & Ht1 & Hs1).
  rewrite H1 in He1. injection He1 as <-.
  rewrite Hv in Hobs. symmetry in Hobs.
  destruct (observe_Some_args j st2 v Hobs) as (e2 & H2 & Hr2 & Hc2 & Ht2 & Hs2).
  rewrite H2.
  destruct a as [s|s|b|l|i s]; try discriminate; intros [= <-];
    eexists; (split; [reflexivity|]);
    rewrite (observe_insert_self j _ e1) by done;
    rewrite (observe_insert_self j _ e2) by done;
    cbn [Command Params Trailing Sensitive].
  - rewrite Hr1, Hr2. congruence.
  - rewrite Hr1, Hr2. congruence.
  - rewrite Hr1, Hr2. congruence.
  - simpl. rewrite !lookup_insert_eq. congruence.
Qed.

Lemma run_isolated (j : nat) (sched : list (nat * action)) :
  only_field_assignments sched →
  ∀ st1 st2 st1',
    allocated st1 → allocated st2 →
    observe j st1 = observe j st2 →
    run sched st1 = Some st1' →
    ∃ st2', run (own j sched) st2 = Some st2' ∧ observe j st1' = observe j st2'.
Proof.
  induction 1 as [|[k a] rest Hfa Hrest IH]; intros st1 st2 st1' Hal1 Hal2 Hobs.
  - simpl. intros [= <-]. by exists st2.
  - cbn [run]. destruct (step k a st1) as [st1m|] eqn:Hstep; [|done].
    intros Hrun. unfold own. rewrite filter_cons. cbn [fst snd] in *.
    destruct (decide (k = j)) as [->|Hne].
    + destruct (step_self_observe j a st1 st2 st1m Hfa Hal1 Hal2 Hobs Hstep)
        as (st2m & Hstep2 & Hobsm).
      cbn [run]. rewrite Hstep2.
      apply (IH st1m st2m st1'); [| |done|done].
      * exact (step_allocated j a st1 st1m Hal1 Hstep).
      * exact (step_allocated j a st2 st2m Hal2 Hstep2).
    + apply (IH st1m st2 st1'); [|done| |done].
      * exact (step_allocated k a st1 st1m Hal1 Hstep).
      * rewrite <- Hobs. by eapply step_other_observe.
Qed.

Lemma launch_allocated {H : Type} (stack : list H) (event : MemEvent)
    (mem : gmap loc (list string)) :
  event_allocated mem event → allocated (launch stack event mem).
Proof.
  intros Hev k e p. unfold launch. cbn [args store].
  rewrite list_lookup_fmap. destruct (stack !! k); [|done].
  simpl. intros [= <-]. apply Hev.
Qed.

(** The event a handler reads right after [exec] started it is the
    event [exec] was given. *)
Lemma launch_observe {H : Type} (stack : list H) (event : MemEvent)
    (mem : gmap loc (list string)) (j : nat) (ps : list string) :
  (j < length stack)%nat →
  read_params mem (Params event) = Some ps →
  observe j (launch stack event mem)
  = Some (mkEvent (Command event) ps (Trailing event) (Sensitive event)).
Proof.
  intros Hj Hps. unfold observe, launch. cbn [args store].
  rewrite list_lookup_fmap.
  destruct (lookup_lt_is_Some_2 stack j Hj) as [h ->]. simpl.
  by rewrite Hps.
Qed.

(** *** A concrete dispatch: two handlers on one PRIVMSG *)

Definition mem0 : gmap loc (list string) := {[ 1%positive := ["#chan"] ]}.
Definition privmsg0 : MemEvent := mkEvent "PRIVMSG" (Some 1%positive) "hi" false.
Definition exec0 : ExecState := launch [tt; tt] privmsg0 mem0.

Definition sched0 : list (nat * action) :=
  [ (0%nat, SetCommand "NOTICE"); (1%nat, SetTrailing "bye");
    (0%nat, SetParams ["#other"]); (0%nat, SetTrailing "x") ].

Lemma privmsg0_allocated : event_allocated mem0 privmsg0.
Proof. intros p [= <-]. unfold mem0. rewrite lookup_singleton_eq. by eexists. Defined.

Lemma sched0_fields : only_field_assignments sched0.
Proof. unfold only_field_assignments, sched0. repeat constructor. Defined.

Lemma step_length (k : nat) (a : action) (st st' : ExecState) :
  step k a st = Some st' → length (args st') = length (args st).
Proof.
  unfold step. destruct (args st !! k) as [e|]; [|done].
  destruct a as [s|s|b|l|i s]; try (intros [= <-]; cbn [args];
    by rewrite length_insert).
  destruct (Params e) as [p|]; [|done].
  destruct (store st !! p) as [arr|]; [|done].
  destruct (i <? length arr)%nat; [|done]. by intros [= <-].
Qed.

(** Whatever the handlers have done so far, stores through the slice
    included, every slice a handler holds still leads to an array, and
    every handler [exec] started still has its argument. *)
Lemma run_allocated (sched : list (nat * action)) :
  ∀ st st', allocated st → run sched st = Some st' →
            allocated st' ∧ length (args st') = length (args st).
Proof.
  induction sched as [|[k a] rest IH]; intros st st' Hal.
  - simpl. by intros [= <-].
  - cbn [run]. destruct (step k a st) as [stm|] eqn:Hstep; [|done].
    intros Hrun.
    destruct (IH stm st' (step_allocated k a st stm Hal Hstep) Hrun) as [? Hlen].
    split; [done|]. rewrite Hlen. by eapply step_length.
Qed.

(** An assignment to a field never panics for a handler that was
    started. *)
Lemma step_field_assignment_runs (k : nat) (a : action) (st : ExecState) :
  (k < length (args st))%nat → field_assignment a = true →
  is_Some (step k a st).
Proof.
  intros Hk Hfa. unfold step.
  destruct (lookup_lt_is_Some_2 (args st) k Hk) as [e ->].
  destruct a; try discriminate; by eexists.
Qed.

(** The command, the trailing text and the sensitive flag of an event,
    and what an action assigns to them. *)
Definition scalars {P : Type} (e : EventOf P) : string * string * bool :=
  (Command e, Trailing e, Sensitive e).

Definition assign (a : action) (f : string * string * bool)
  : string * string * bool :=
  match a with
  | SetCommand s => (s, f.1.2, f.2)
  | SetTrailing s => (f.1.1, s, f.2)
  | SetSensitive b => (f.1.1, f.1.2, b)
  | SetParams _ | SetParam _ _ => f
  end.

(** The assignments of handler [j] in a schedule, applied in order. *)
Definition own_scalars (j : nat) (sched : list (nat * action))
    (f : string * string * bool) : string * string * bool :=
  foldl (fun f ka => assign ka.2 f) f (own j sched).

Lemma step_scalars (j k : nat) (a : action) (st st' : ExecState) (e : MemEvent) :
  step k a st = Some st' → args st !! j = Some e →
  ∃ e', args st' !! j = Some e'
        ∧ scalars e' = if decide (k = j) then assign a (scalars e) else scalars e.
Proof.
  unfold step. intros Hstep Hj.
  destruct (args st !! k) as [ek|] eqn:Hk; [|done].
  destruct (decide (k = j)) as [->|Hne].
  - rewrite Hj in Hk. injection Hk as <-.
    assert (j < length (args st))%nat as Hlt by (by eapply lookup_lt_Some).
    destruct a as [s|s|b|l|i s].
    1-4: injection Hstep as <-; cbn [args];
      rewrite list_lookup_insert_eq by done; by eexists.
    destruct (Params e) as [p|]; [|done].
    destruct (store st !! p) as [arr|]; [|done].
    destruct (i <? length arr)%nat; [|done].
    injection Hstep as <-. by exists e.
  - destruct a as [s|s|b|l|i s].
    1-4: injection Hstep as <-; cbn [args];
      rewrite list_lookup_insert_ne by done; by exists e.
    destruct (Params ek) as [p|]; [|done].
    destruct (store st !! p) as [arr|]; [|done].
    destruct (i <? length arr)%nat; [|done].
    injection Hstep as <-. by exists e.
Qed.

Lemma run_scalars (j : nat) (sched : list (nat * action)) :
  ∀ st st' e, run sched st = Some st' → args st !! j = Some e →
              ∃ e', args st' !! j = Some e'
                    ∧ scalars e' = own_scalars j sched (scalars e).
Proof.
  induction sched as [|[k a] rest IH]; intros st st' e.
  - simpl. intros [= <-] Hj. by exists e.
  - cbn [run]. destruct (step k a st) as [stm|] eqn:Hstep; [|done].
    intros Hrun Hj.
    destruct (step_scalars j k a st stm e Hstep Hj) as (em & Hm & Hsm).
    destruct (IH stm st' em Hrun Hm) as (e' & He' & Hs').
    exists e'. split; [done|]. rewrite Hs', Hsm.
    unfold own_scalars, own. rewrite filter_cons. cbn [fst snd].
    by destruct (decide (k = j)).
Qed.

Lemma read_params_allocated (mem : gmap loc (list string)) (e : MemEvent)
    (ps : list string) :
  read_params mem (Params e) = Some ps → event_allocated mem e.
Proof. intros Hps p Hp. rewrite Hp in Hps. simpl in Hps. by eexists. Qed.

(** C5, as the code has it.  [exec] passes [*event] by value, so every
    handler it starts reads the event [exec] was given.  After any
    schedule of the handlers' actions, stores through the parameter
    slice included, the command, the trailing text and the sensitive
    flag that handler [j] reads are those of that event as changed by
    the assignments of [j] alone.  And at any point of the dispatch an
    assignment by handler [k] to a field of its argument (command,
    trailing, sensitive flag, or a new parameter slice) goes through and
    leaves what every other handler reads, parameters included, as it
    was. *)
Theorem exec_field_assignments_isolated (H : Type) (stack : list H)
    (event : MemEvent) (mem : gmap loc (list string)) (ps : list string)
    (sched : list (nat * action)) (st : ExecState) :
  read_params mem (Params event) = Some ps →
  run sched (launch stack event mem) = Some st →
  (∀ j, (j < length stack)%nat →
        observe j (launch stack event mem)
        = Some (mkEvent (Command event) ps (Trailing event) (Sensitive event)))
  ∧ (∀ j, (j < length stack)%nat →
          ∃ v, observe j st = Some v
               ∧ scalars v = own_scalars j sched (scalars event))
  ∧ (∀ k a, (k < length stack)%nat → field_assignment a = true →
        ∃ st', step k a st = Some st'
               ∧ ∀ j, j ≠ k → observe j st' = observe j st).
Proof.
  intros Hps Hrun.
  destruct (run_allocated sched (launch stack event mem) st) as [Hal Hlen];
    [apply launch_allocated; by eapply read_params_allocated|done|].
  split_and!.
  - intros j Hj. by apply launch_observe.
  - intros j Hj.
    assert (args (launch stack event mem) !! j = Some event) as Hargs.
    { unfold launch. cbn [args]. rewrite list_lookup_fmap.
      by destruct (lookup_lt_is_Some_2 stack j Hj) as [h ->]. }
    destruct (run_scalars j sched _ st event Hrun Hargs) as (e' & He' & Hs').
    destruct (observe_args_allocated j st e' Hal He') as [v Hv].
    exists v. split; [done|].
    destruct (observe_Some_args j st v Hv) as (e'' & He'' & _ & Hc & Ht & Hse).
    rewrite He' in He''. injection He'' as <-.
    rewrite <- Hs'. unfold scalars. by rewrite Hc, Ht, Hse.
  - intros k a Hk Hfa.
    assert (k < length (args st))%nat as Hk'.
    { rewrite Hlen. unfold launch. cbn [args]. by rewrite length_fmap. }
    destruct (step_field_assignment_runs k a st Hk' Hfa) as [st' Hstep].
    exists st'. split; [done|]. intros j Hne.
    by apply (step_other_observe j k a st st').
Qed.

(** Handler 0 first stores into [e.Params[0]] and then assigns
    [e.Command]: handler 1 reads the stored element (the array is
    shared) but never the new command. *)
Definition sched1 : list (nat * action) := [ (0%nat, SetParam 0 "x") ].

Lemma exec_field_assignments_isolated_witness :
  observe 1 exec0 = Some (mkEvent "PRIVMSG" ["#chan"] "hi" false)
  ∧ (run (sched1 ++ [(0%nat, SetCommand "NOTICE")]) exec0 ≫= observe 1)
    = Some (mkEvent "PRIVMSG" ["x"] "hi" false)
  ∧ (run (sched1 ++ [(0%nat, SetCommand "NOTICE")]) exec0 ≫= observe 0)
    = Some (mkEvent "NOTICE" ["x"] "hi" false)
  ∧ ∃ v, (run sched1 exec0 ≫= observe 1) = Some v
         ∧ scalars v = ("PRIVMSG", "hi", false).
Proof.
  unfold exec0.
  destruct (run sched1 (launch [tt; tt] privmsg0 mem0)) as [st|] eqn:E;
    [|vm_compute in E; discriminate E].
  destruct (exec_field_assignments_isolated unit [tt; tt] privmsg0 mem0
              ["#chan"] sched1 st eq_refl E) as (Hcopy & Hscalars & Hframe).
  split; [exact (Hcopy 1%nat ltac:(simpl; lia))|].
  destruct (Hframe 0%nat (SetCommand "NOTICE") ltac:(simpl; lia) eq_refl)
    as (st' & Hstep & Hothers).
  assert (run (sched1 ++ [(0%nat, SetCommand "NOTICE")])
            (launch [tt; tt] privmsg0 mem0) = Some st') as ->.
  { unfold sched1 in *. cbn [app run] in *.
    destruct (step 0 (SetParam 0 "x") (launch [tt; tt] privmsg0 mem0));
      [|discriminate E].
    injection E as ->. by rewrite Hstep. }
  cbn [mbind option_bind]. split_and!.
  - rewrite (Hothers 1%nat ltac:(lia)).
    vm_compute in E. injection E as <-. vm_compute. reflexivity.
  - vm_compute in E. injection E as <-.
    vm_compute in Hstep. injection Hstep as <-. vm_compute. reflexivity.
  - exact (Hscalars 1%nat ltac:(simpl; lia)).
Defined.

(** C5 as stated fails: handler 0 stores into [e.Params[0]], and handler
    1, which did nothing, reads the new element: the two arguments share
    the backing array of the parameter list. *)
Lemma exec_param_store_seen_by_sibling :
  observe 1 exec0 = Some (mkEvent "PRIVMSG" ["#chan"] "hi" false)
  ∧ own 1 [(0%nat, SetParam 0 "x")] = []
  ∧ (run [(0%nat, SetParam 0 "x")] exec0 ≫= observe 1)
    = Some (mkEvent "PRIVMSG" ["x"] "hi" false).
Proof. repeat split; vm_compute; reflexivity. Qed.

End Dispatch.

(* ===================================================================== *)
(** ** client.go: the connection supervisor *)
(* ===================================================================== *)

Module Supervisor.
Import GoLib Events.

(** The errors of [client.go].  [ErrNew msg] is [errors.New(msg)];
    [ErrExternal] is an error handed back by [net], [tls], the encoder or
    the capability listing. *)
Inductive error : Type :=
| ErrNotConnected
| ErrAlreadyConnecting
| ErrDisconnected
| ErrInvalidTarget (Target : string)
| ErrNew (msg : string)
| ErrExternal (code : nat).

#[global] Instance error_eq_dec : EqDecision error.
Proof. solve_decision. Defined.

(** [Config], with the fields the functions below read. *)
Record Config : Type := mkConfig {
  Server : string;
  Port : Z;
  Password : string;
  Nick : string;
  User : string;
  Name : string;
  Conn : option nat;          (* *net.Conn: a connection supplied by the caller *)
  TLSConfig : bool;           (* TLSConfig != nil *)
  Retries : Z;
  AllowFlood : bool;
  ReconnectDelay : Z          (* time.Duration, in nanoseconds *)
}.

(** Modelled from the spec: the session [state] (declared in a file that
    is not among the sources), with the fields [client.go] reads and
    writes: the transport, the decoder and encoder bound to it, the
    connected flag, the connection timestamp, the time of the last write
    and the nickname. *)
Record state : Type := mkState {
  conn : option nat;
  reader : option nat;
  writer : option nat;
  connected : bool;
  connTime : option Z;
  lastWrite : Z;
  nick : string
}.

(** Modelled from the spec: [newState()] gives a fresh session: no
    transport, not connected, no timestamp. *)
Definition newState : state := mkState None None None false None 0 EmptyString.

Inductive task : Type := readLoop | execLoop.

Inductive logline : Type :=
| LogConnecting (addr : string)                      (* "connecting to %s..." *)
| LogReconnecting (addr : string) (d : Z)            (* "reconnecting to %s in %s" *)
| LogRetry (addr : string) (d : Z) (tries : Z)       (* "... (%d tries)" *)
| LogSent (e : Event).                               (* "> " + the event *)

(** What a call does to the world outside the [Client] struct. *)
Inductive effect : Type :=
| Closed (c : nat)                       (* conn.Close() *)
| Cancelled (ctx : nat)                  (* a context.CancelFunc is called *)
| Dialled (tls : bool) (addr : string)   (* net.Dial / tls.Dial *)
| Encoded (w : nat) (e : Event)          (* writer.Encode(e) *)
| CapListed                              (* c.listCAP() *)
| Slept (d : Z)                          (* time.Sleep(d), <-time.After(d) *)
| Started (t : task) (ctx : nat)         (* go t(ctx) *)
| Logged (l : logline).                  (* c.debug.Print *)

(** [Client].  [now], [nextCtx] and [trace] are the world the client
    runs in: the clock, the next context [context.WithCancel] will make,
    and the effects so far. *)
Record Client : Type := mkClient {
  config : Config;
  Events : list Event;
  st : state;
  tries : Z;
  reconnecting : bool;
  closeRead : option nat;
  closeExec : option nat;
  closeLoop : option nat;
  now : Z;
  nextCtx : nat;
  trace : list effect
}.

(** What the supervisor needs from the rest of the package and from the
    network: the validity rules, the line limit, and the answers of the
    dialler, the encoder, the rate limiter and the capability listing. *)
Record Env : Type := mkEnv {
  IsValidNick : string → bool;
  IsValidUser : string → bool;
  IsValidChannel : string → bool;
  maxLength : Z;
  dial : bool → string → Z → nat + error;
  encode : nat → Event → Z → option error;
  rate : state → Event → Z;
  listCAP : nat → Z → option error
}.

(** How a call ends: it returns, it waits for ever on the full event
    queue, it panics, or the model ran out of steps. *)
Inductive outcome (A : Type) : Type :=
| Done (a : A)
| Blocks
| Panics
| OutOfFuel.

Arguments Done {A} _.
Arguments Blocks {A}.
Arguments Panics {A}.
Arguments OutOfFuel {A}.

#[global] Instance outcome_bind : MBind outcome :=
  fun A B f m =>
    match m with
    | Done a => f a
    | Blocks => Blocks
    | Panics => Panics
    | OutOfFuel => OutOfFuel
    end.

#[global] Instance outcome_ret : MRet outcome := fun A a => Done a.

(** *** Field updates *)

Definition with_config (x : Config) (c : Client) : Client :=
  mkClient x (Events c) (st c) (tries c) (reconnecting c) (closeRead c)
           (closeExec c) (closeLoop c) (now c) (nextCtx c) (trace c).
Definition with_Events (x : list Event) (c : Client) : Client :=
  mkClient (config c) x (st c) (tries c) (reconnecting c) (closeRead c)
           (closeExec c) (closeLoop c) (now c) (nextCtx c) (trace c).
Definition with_st (x : state) (c : Client) : Client :=
  mkClient (config c) (Events c) x (tries c) (reconnecting c) (closeRead c)
           (closeExec c) (closeLoop c) (now c) (nextCtx c) (trace c).
Definition with_tries (x : Z) (c : Client) : Client :=
  mkClient (config c) (Events c) (st c) x (reconnecting c) (closeRead c)
           (closeExec c) (closeLoop c) (now c) (nextCtx c) (trace c).
Definition with_reconnecting (x : bool) (c : Client) : Client :=
  mkClient (config c) (Events c) (st c) (tries c) x (closeRead c)
           (closeExec c) (closeLoop c) (now c) (nextCtx c) (trace c).
Definition with_closeRead (x : option nat) (c : Client) : Client :=
  mkClient (config c) (Events c) (st c) (tries c) (reconnecting c) x
           (closeExec c) (closeLoop c) (now c) (nextCtx c) (trace c).
Definition with_closeLoop (x : option nat) (c : Client) : Client :=
  mkClient (config c) (Events c) (st c) (tries c) (reconnecting c) (closeRead c)
           (closeExec c) x (now c) (nextCtx c) (trace c).
Definition with_now (x : Z) (c : Client) : Client :=
  mkClient (config c) (Events c) (st c) (tries c) (reconnecting c) (closeRead c)
           (closeExec c) (closeLoop c) x (nextCtx c) (trace c).
Definition with_nextCtx (x : nat) (c : Client) : Client :=
  mkClient (config c) (Events c) (st c) (tries c) (reconnecting c) (closeRead c)
           (closeExec c) (closeLoop c) (now c) x (trace c).
Definition with_trace (x : list effect) (c : Client) : Client :=
  mkClient (config c) (Events c) (st c) (tries c) (reconnecting c) (closeRead c)
           (closeExec c) (closeLoop c) (now c) (nextCtx c) x.

Definition with_Name (x : string) (g : Config) : Config :=
  mkConfig (Server g) (Port g) (Password g) (Nick g) (User g) x (Conn g)
           (TLSConfig g) (Retries g) (AllowFlood g) (ReconnectDelay g).
Definition with_ReconnectDelay (x : Z) (g : Config) : Config :=
  mkConfig (Server g) (Port g) (Password g) (Nick g) (User g) (Name g) (Conn g)
           (TLSConfig g) (Retries g) (AllowFlood g) x.

Definition with_transport (k : nat) (s : state) : state :=
  mkState (Some k) (reader s) (writer s) (connected s) (connTime s)
          (lastWrite s) (nick s).
Definition with_codecs (s : state) : state :=
  mkState (conn s) (conn s) (conn s) (connected s) (connTime s)
          (lastWrite s) (nick s).
Definition with_lastWrite (t : Z) (s : state) : state :=
  mkState (conn s) (reader s) (writer s) (connected s) (connTime s) t (nick s).
Definition with_connected (t : Z) (s : state) : state :=
  mkState (conn s) (reader s) (writer s) true (Some t) (lastWrite s) (nick s).
Definition with_nick (x : string) (s : state) : state :=
  mkState (conn s) (reader s) (writer s) (connected s) (connTime s)
          (lastWrite s) x.

(** *** The operations *)

Section Operations.
Context (E : Env).

(** The buffer of [Events]: [make(chan *Event, 100)]. *)
Definition eventsCap : nat := 100.

(** [New]: a client for [cfg], created at time [t]. *)
Definition New (cfg : Config) (t : Z) : Client :=
  mkClient cfg [] newState 0 false None None None t 0 [].

Definition emit (e : effect) (c : Client) : Client :=
  with_trace (trace c ++ [e]) c.

(** [time.Sleep(d)]: a duration that is not positive returns at once. *)
Definition sleep (d : Z) (c : Client) : Client :=
  emit (Slept d) (with_now (now c + Z.max 0 d) c).

(** [c.Events <- ev]: waits while the buffer is full. *)
Definition chan_send (ev : Event) (c : Client) : outcome Client :=
  if (length (Events c) <? eventsCap)%nat
  then Done (with_Events (Events c ++ [ev]) c)
  else Blocks.

(** Calling a [context.CancelFunc] that may be nil. *)
Definition cancel (f : option nat) (c : Client) : Client :=
  match f with
  | Some ctx => emit (Cancelled ctx) c
  | None => c
  end.

(** [context.WithCancel(context.Background())]: a context nobody has
    seen yet. *)
Definition WithCancel (c : Client) : nat * Client :=
  (nextCtx c, with_nextCtx (S (nextCtx c)) c).

(** [Client.Server]: ["%s:%d"] of the host and the port. *)
Definition ServerAddr (c : Client) : string :=
  Server (config c) +:+ ":" +:+ pretty (Port (config c)).

(** [Client.cleanup]. *)
Definition cleanup (all : bool) (c : Client) : Client :=
  let c1 := match conn (st c) with
            | Some k => emit (Closed k) c
            | None => c
            end in
  let c2 := cancel (closeRead c1) c1 in
  let c3 := cancel (closeExec c2) c2 in
  if all then cancel (closeLoop c3) c3 else c3.

(** [Client.write].  The encoder is reached through [c.state.writer]; a
    call through the nil pointer is a panic. *)
Definition write (ev : Event) (c : Client) : outcome (Client * option error) :=
  let c1 := with_st (with_lastWrite (now c) (st c)) c in
  let c2 := if Sensitive ev then c1 else emit (Logged (LogSent ev)) c1 in
  match writer (st c2) with
  | None => Panics
  | Some w => Done (emit (Encoded w ev) c2, encode E w ev (now c2))
  end.

(** [Client.Send]. *)
Definition Send (ev : Event) (c : Client) : outcome (Client * option error) :=
  let c1 := if AllowFlood (config c) then c else sleep (rate E (st c) ev) c in
  write ev c1.

(** [Client.connectMessages]. *)
Definition connectMessages (c : Client) : Client * list Event :=
  let g := config c in
  let events1 :=
    if decide (Password g = EmptyString) then []
    else [event PASS [Password g] EmptyString] in
  let events2 := events1 ++ [event NICK [Nick g] EmptyString] in
  let c1 := if decide (Name g = EmptyString)
            then with_config (with_Name (User g) g) c else c in
  (c1, events2 ++ [event USER [User (config c1); "+iw"; "*"] (Name (config c1))]).

(** [for _, event := range ... { if err := c.write(event); err != nil
    { return err } }]. *)
Fixpoint write_all (evs : list Event) (c : Client)
  : outcome (Client * option error) :=
  match evs with
  | [] => Done (c, None)
  | ev :: rest =>
      '(c1, err) ← write ev c;
      match err with
      | Some e => Done (c1, Some e)
      | None => write_all rest c1
      end
  end.

(** The end of [Connect]: the two contexts and the two goroutines.  Both
    cancel functions are assigned to [c.closeRead]. *)
Definition start_loops (c : Client) : Client :=
  let '(rctx, c1) := WithCancel c in
  let c2 := with_closeRead (Some rctx) c1 in
  let '(ectx, c3) := WithCancel c2 in
  let c4 := with_closeRead (Some ectx) c3 in
  emit (Started execLoop ectx) (emit (Started readLoop rctx) c4).

(** [Connect] from the point where the transport is installed. *)
Definition handshake (c : Client) : outcome (Client * option error) :=
  let c1 := with_st (with_codecs (st c)) c in
  c2 ← chan_send (event INITIALIZED [] (ServerAddr c1)) c1;
  let '(c3, evs) := connectMessages c2 in
  '(c4, err) ← write_all evs c3;
  match err with
  | Some e => Done (c4, Some e)
  | None =>
      let c5 := emit CapListed c4 in
      match listCAP E (default 0%nat (conn (st c5))) (now c5) with
      | Some e => Done (c5, Some e)
      | None =>
          let c6 := with_reconnecting false (with_tries 0 c5) in
          let c7 := with_st (with_connected (now c6) (st c6)) c6 in
          Done (start_loops c7, None)
      end
  end.

(** [Client.Connect]. *)
Definition Connect (c : Client) : outcome (Client * option error) :=
  let g := config c in
  if decide (Server g = EmptyString)
  then Done (c, Some (ErrNew "invalid server specified"))
  else if (Port g <? 21) || (65535 <? Port g)
  then Done (c, Some (ErrNew "invalid port (21-65535)"))
  else if negb (IsValidNick E (Nick g)) || negb (IsValidUser E (User g))
  then Done (c, Some (ErrNew "invalid nickname or user"))
  else
    let c1 := cleanup false c in
    let c2 := with_st newState c1 in
    let c3 := emit (Logged (LogConnecting (ServerAddr c2))) c2 in
    match Conn (config c3) with
    | None =>
        let c4 := emit (Dialled (TLSConfig (config c3)) (ServerAddr c3)) c3 in
        match dial E (TLSConfig (config c3)) (ServerAddr c3) (now c3) with
        | inr err => Done (c4, Some err)
        | inl k => handshake (with_st (with_transport k (st c4)) c4)
        end
    | Some k => handshake (with_st (with_transport k (st c3)) c3)
    end.

(** The delay floor: [10 * time.Second] and [25 * time.Second]. *)
Definition second : Z := 1000000000.

(** The body of the retry loop of [reconnect] and its post statement. *)
Definition retry_body (c : Client) : Client :=
  let d := ReconnectDelay (config c) in
  let c1 := emit (Logged (LogRetry (ServerAddr c) d (tries c))) c in
  let c2 := sleep d c1 in
  with_tries (tries c2 + 1) c2.

(** [for err = c.Connect(); err != nil && c.tries < c.Config.Retries;
    c.tries++ { ... }] once the init statement has run: [err] is the
    result of that one [Connect]. *)
Fixpoint retry_loop (fuel : nat) (err : option error) (c : Client)
  : outcome Client :=
  match err with
  | None => Done c
  | Some _ =>
      if tries c <? Retries (config c) then
        match fuel with
        | O => OutOfFuel
        | S fuel' => retry_loop fuel' err (retry_body c)
        end
      else Done c
  end.

(** [Client.reconnect].  The deferred function clears [reconnecting] on
    every return after the guard. *)
Definition reconnect (remoteInvoked : bool) (c : Client)
  : outcome (Client * option error) :=
  if reconnecting c then Done (c, Some ErrDisconnected)
  else
    let c1 := with_reconnecting true c in
    let c2 := cleanup false c1 in
    let c3 := if ReconnectDelay (config c2) <? 10 * second
              then with_config (with_ReconnectDelay (25 * second) (config c2)) c2
              else c2 in
    '(c', err) ←
      (if (Retries (config c3) <? 1) && negb remoteInvoked
       then Done (c3, Some ErrDisconnected)
       else
         let d := ReconnectDelay (config c3) in
         let c4 := emit (Logged (LogReconnecting (ServerAddr c3) d)) c3 in
         let c5 := sleep d c4 in
         '(c6, err) ← Connect c5;
         c7 ← retry_loop (Z.to_nat (Retries (config c6) - tries c6)) err c6;
         match err with
         | Some e => Done (cleanup false c7, Some e)
         | None => Done (c7, None)
         end);
    Done (with_reconnecting false c', err).

Definition Reconnect (c : Client) : outcome (Client * option error) :=
  reconnect true c.

(** [Client.quit]. *)
Definition quit (sendMessage : bool) (c : Client) : outcome Client :=
  c1 ← (if sendMessage
        then '(c', _) ← Send (event QUIT [] "disconnecting...") c; Done c'
        else Done c);
  c2 ← chan_send (event DISCONNECTED [] (ServerAddr c1)) c1;
  Done (cleanup false c2).

Definition Quit (c : Client) : outcome Client := quit true c.

Definition QuitWithMessage (message : string) (c : Client) : outcome Client :=
  '(c1, _) ← Send (event QUIT [] message) c;
  quit false c1.

(** [Client.Stop]. *)
Definition Stop (c : Client) : outcome Client :=
  c1 ← quit false c;
  chan_send (event STOPPED [] (ServerAddr c1)) c1.

(** [Client.Loop], up to the wait on its context. *)
Definition Loop (c : Client) : Client :=
  let '(ctx, c1) := WithCancel c in
  with_closeLoop (Some ctx) c1.

(** [Client.IsConnected]. *)
Definition IsConnected (c : Client) : bool := connected (st c).

(** [Client.Uptime].  [IsConnected] takes the session lock and releases
    it; the timestamp is read under the lock taken a second time, from
    whatever session [c.state] points to by then.  Other goroutines may
    have run in between: [seen] is the client at the check, [c] the
    client at the read.  A call that nothing interleaves with is
    [Uptime c c]. *)
Definition Uptime (seen c : Client) : option Z * option error :=
  if negb (IsConnected seen) then (None, Some ErrNotConnected)
  else (connTime (st c), None).


(** [Client.Nick]: the name is stored in the session before the event is
    sent. *)
Definition SetNick (name : string) (c : Client) : outcome (Client * option error) :=
  if negb (IsValidNick E name) then Done (c, Some (ErrInvalidTarget name))
  else Send (event NICK [name] EmptyString) (with_st (with_nick name (st c)) c).

(** The loop of [Client.Join]: [chans] are the channels from index [i]
    on, [buffer] is the list collected so far, and [i == len(channels)-1]
    holds when no channel follows. *)
Fixpoint join_loop (chans : list string) (buffer : string) (c : Client)
  : outcome (Client * option error) :=
  let max := maxLength E - len JOIN - 1 in
  match chans with
  | [] => Done (c, None)
  | ch :: rest =>
      if negb (IsValidChannel E ch) then Done (c, Some (ErrInvalidTarget ch))
      else if max <? len (buffer +:+ "," +:+ ch) then
        '(c1, err) ← Send (event JOIN [buffer] EmptyString) c;
        match err with
        | Some e => Done (c1, Some e)
        | None => join_loop rest EmptyString c1
        end
      else
        let buffer' := if len buffer =? 0 then ch else buffer +:+ "," +:+ ch in
        match rest with
        | [] => Send (event JOIN [buffer'] EmptyString) c
        | _ :: _ => join_loop rest buffer' c
        end
  end.

(** [Client.Join]. *)
Definition Join (channels : list string) (c : Client)
  : outcome (Client * option error) :=
  join_loop channels EmptyString c.

(** [Client.Part]. *)
Definition Part (channel message : string) (c : Client)
  : outcome (Client * option error) :=
  if negb (IsValidChannel E channel)
  then Done (c, Some (ErrInvalidTarget channel))
  else Send (event JOIN [channel] EmptyString) c.

(** [Client.PartMessage]. *)
Definition PartMessage (channel message : string) (c : Client)
  : outcome (Client * option error) :=
  if negb (IsValidChannel E channel)
  then Done (c, Some (ErrInvalidTarget channel))
  else Send (event JOIN [channel] message) c.

(** *** Reading the trace *)

(** The events handed to the encoder, in order. *)
Definition sent (tr : list effect) : list Event :=
  omap (fun e => match e with Encoded _ ev => Some ev | _ => None end) tr.

(** The goroutines started. *)
Definition started (tr : list effect) : list (task * nat) :=
  omap (fun e => match e with Started t ctx => Some (t, ctx) | _ => None end) tr.

(** The contexts cancelled. *)
Definition cancelled (tr : list effect) : list nat :=
  omap (fun e => match e with Cancelled ctx => Some ctx | _ => None end) tr.

(** The connections closed. *)
Definition closed (tr : list effect) : list nat :=
  omap (fun e => match e with Closed k => Some k | _ => None end) tr.

(** The waits. *)
Definition slept (tr : list effect) : list Z :=
  omap (fun e => match e with Slept d => Some d | _ => None end) tr.

(** The connection attempts that passed the sanity checks, by their
    ["connecting to ..."] line. *)
Definition attempts (tr : list effect) : nat :=
  length (omap (fun e => match e with
                         | Logged (LogConnecting _) => Some tt
                         | _ => None
                         end) tr).

(** *** The calls a program can make, and the states it can reach *)

(** One call of the API, or one move of the goroutines and of the clock.
    The builders that check a target and then send one event ([JoinKey],
    [Message], [Kick], ...) are a [Send] or leave the client as it is;
    [Nick] has a case of its own, since it writes the session before it
    sends. *)
Inductive step : Client → Client → Prop :=
| step_Connect c c' r : Connect c = Done (c', r) → step c c'
| step_reconnect b c c' r : reconnect b c = Done (c', r) → step c c'
| step_cleanup all c : step c (cleanup all c)
| step_Quit c c' : Quit c = Done c' → step c c'
| step_QuitWithMessage m c c' : QuitWithMessage m c = Done c' → step c c'
| step_Stop c c' : Stop c = Done c' → step c c'
| step_Loop c : step c (Loop c)
| step_Send ev c c' r : Send ev c = Done (c', r) → step c c'
| step_Join chans c c' r : Join chans c = Done (c', r) → step c c'
| step_Part ch m c c' r : Part ch m c = Done (c', r) → step c c'
| step_PartMessage ch m c c' r : PartMessage ch m c = Done (c', r) → step c c'
| step_Nick name c c' r : SetNick name c = Done (c', r) → step c c'
(* the reader goroutine queues a decoded event *)
| step_read ev c c' : chan_send ev c = Done c' → step c c'
(* the dispatch goroutine takes the oldest event *)
| step_dispatch c : step c (with_Events (tail (Events c)) c)
(* the program assigns the exported [Config] field *)
| step_configure g c : step c (with_config g c)
(* time passes *)
| step_tick d c : 0 <= d → step c (with_now (now c + d) c).

Inductive reachable : Client → Prop :=
| reach_New cfg t : reachable (New cfg t)
| reach_step c c' : reachable c → step c c' → reachable c'.

(** The session is consistent: a connected session has its timestamp and
    its encoder. *)
Definition session_ok (s : state) : Prop :=
  connected s = true → is_Some (connTime s) ∧ is_Some (writer s).

(** Two sessions that differ at most in the time of the last write. *)
Definition same_session (s s' : state) : Prop :=
  with_lastWrite 0 s = with_lastWrite 0 s'.

(** *** Effects by kind, and how a call extends the trace *)

Inductive kind : Type :=
| KClosed | KCancelled | KDialled | KEncoded | KCapListed
| KSlept | KStarted | KConnecting | KLogged.

#[global] Instance kind_eq_dec : EqDecision kind.
Proof. solve_decision. Defined.

Definition kind_of (e : effect) : kind :=
  match e with
  | Closed _ => KClosed
  | Cancelled _ => KCancelled
  | Dialled _ _ => KDialled
  | Encoded _ _ => KEncoded
  | CapListed => KCapListed
  | Slept _ => KSlept
  | Started _ _ => KStarted
  | Logged (LogConnecting _) => KConnecting
  | Logged _ => KLogged
  end.

(** [c'] has the trace of [c] followed by effects of the kinds [ks]. *)
Definition grows (ks : list kind) (c c' : Client) : Prop :=
  ∃ tr, trace c' = trace c ++ tr ∧ Forall (fun e => kind_of e ∈ ks) tr.

(** The fields that hold and make contexts. *)
Definition ctl (c : Client) : nat * option nat * option nat * option nat :=
  (nextCtx c, closeRead c, closeExec c, closeLoop c).

(** Every context that was cancelled or is held was made before. *)
Definition older (n : nat) (f : option nat) : Prop :=
  ∀ k, f = Some k → (k < n)%nat.

Definition ctx_ok (c : Client) : Prop :=
  Forall (fun k => (k < nextCtx c)%nat) (cancelled (trace c))
  ∧ Forall (fun tk => (tk.2 < nextCtx c)%nat) (started (trace c))
  ∧ older (nextCtx c) (closeRead c)
  ∧ older (nextCtx c) (closeExec c)
  ∧ older (nextCtx c) (closeLoop c).

End Operations.

(** *** Lemmas on traces *)

Lemma grows_refl (ks : list kind) (c : Client) : grows ks c c.
Proof. exists []. by rewrite app_nil_r. Qed.

Lemma grows_same (ks : list kind) (c c' : Client) :
  trace c' = trace c → grows ks c c'.
Proof. intros H. exists []. by rewrite app_nil_r. Qed.

Lemma grows_trans (ks : list kind) (c1 c2 c3 : Client) :
  grows ks c1 c2 → grows ks c2 c3 → grows ks c1 c3.
Proof.
  intros (t1 & H1 & F1) (t2 & H2 & F2). exists (t1 ++ t2).
  split; [by rewrite H2, H1, app_assoc|]. by apply Forall_app.
Qed.

Lemma grows_mono (ks ks' : list kind) (c c' : Client) :
  ks ⊆ ks' → grows ks c c' → grows ks' c c'.
Proof.
  intros Hsub (tr & H & F). exists tr. split; [done|].
  eapply Forall_impl; [exact F|]. intros e He. by apply Hsub.
Qed.

Lemma grows_emit (ks : list kind) (e : effect) (c : Client) :
  kind_of e ∈ ks → grows ks c (emit e c).
Proof. intros H. exists [e]. split; [done|]. by constructor. Qed.

Lemma grows_then_emit (ks : list kind) (e : effect) (c c1 : Client) :
  grows ks c c1 → kind_of e ∈ ks → grows ks c (emit e c1).
Proof. intros H He. eapply grows_trans; [exact H|by apply grows_emit]. Qed.

Lemma grows_sleep (ks : list kind) (d : Z) (c : Client) :
  KSlept ∈ ks → grows ks c (sleep d c).
Proof. intros H. apply grows_then_emit; [by apply grows_same|done]. Qed.

Lemma grows_omap {A : Type} (f : effect → option A) (k : kind)
    (ks : list kind) (c c' : Client) :
  (∀ e, kind_of e ≠ k → f e = None) →
  k ∉ ks →
  grows ks c c' →
  omap f (trace c') = omap f (trace c).
Proof.
  intros Hf Hk (tr & -> & F). rewrite omap_app.
  assert (omap f tr = []) as ->; [|by rewrite app_nil_r].
  induction F as [|e tr He F IH]; [done|].
  cbn. rewrite Hf; [exact IH|]. intros E. by rewrite E in He.
Qed.

Lemma grows_started (ks : list kind) (c c' : Client) :
  KStarted ∉ ks → grows ks c c' → started (trace c') = started (trace c).
Proof.
  intros Hk Hg. unfold started.
  apply (grows_omap _ KStarted ks); [|done..].
  by intros [| | | | | | |[]].
Qed.

Lemma grows_cancelled (ks : list kind) (c c' : Client) :
  KCancelled ∉ ks → grows ks c c' → cancelled (trace c') = cancelled (trace c).
Proof.
  intros Hk Hg. unfold cancelled.
  apply (grows_omap _ KCancelled ks); [|done..].
  by intros [| | | | | | |[]].
Qed.

Lemma grows_attempts (ks : list kind) (c c' : Client) :
  KConnecting ∉ ks → grows ks c c' → attempts (trace c') = attempts (trace c).
Proof.
  intros Hk Hg. unfold attempts. f_equal.
  apply (grows_omap _ KConnecting ks); [|done..].
  by intros [| | | | | | |[]].
Qed.

Lemma grows_sent (ks : list kind) (c c' : Client) :
  KEncoded ∉ ks → grows ks c c' → sent (trace c') = sent (trace c).
Proof.
  intros Hk Hg. unfold sent.
  apply (grows_omap _ KEncoded ks); [|done..].
  by intros [| | | | | | |[]].
Qed.

(** Deciding membership and inclusion for lists of kinds. *)
Ltac kinds :=
  lazymatch goal with
  | |- @subseteq _ _ _ _ =>
      let k := fresh "k" in let H := fresh "H" in
      intros k H; apply (bool_decide_pack _) in H; destruct k;
      try (vm_compute in H; destruct H);
      apply (bool_decide_unpack _); vm_compute; exact I
  | |- _ => apply (bool_decide_unpack _); vm_compute; exact I
  end.

(** *** Sessions *)

Lemma same_session_fields (s s' : state) :
  same_session s s' →
  conn s' = conn s ∧ reader s' = reader s ∧ writer s' = writer s
  ∧ connected s' = connected s ∧ connTime s' = connTime s.
Proof.
  unfold same_session, with_lastWrite. intros H.
  by injection H as -> -> -> -> -> _.
Qed.

Lemma same_session_lastWrite (t : Z) (s : state) :
  same_session s (with_lastWrite t s).
Proof. done. Qed.

Lemma session_ok_same (s s' : state) :
  same_session s s' → session_ok s → session_ok s'.
Proof.
  intros H Hok. destruct (same_session_fields s s' H) as (_ & _ & Hw & Hc & Ht).
  unfold session_ok. rewrite Hw, Hc, Ht. exact Hok.
Qed.

(** A call that leaves the session (but for the time of the last write),
    the contexts, the configuration and the reconnect bookkeeping alone. *)
Definition light (c c' : Client) : Prop :=
  same_session (st c) (st c') ∧ ctl c' = ctl c ∧ config c' = config c
  ∧ tries c' = tries c ∧ reconnecting c' = reconnecting c.

Lemma light_refl (c : Client) : light c c.
Proof. by repeat split. Qed.

Lemma light_trans (c1 c2 c3 : Client) : light c1 c2 → light c2 c3 → light c1 c3.
Proof.
  unfold light, same_session.
  intros (S1 & C1 & G1 & T1 & R1) (S2 & C2 & G2 & T2 & R2).
  repeat split; congruence.
Qed.

Lemma light_emit (e : effect) (c : Client) : light c (emit e c).
Proof. by repeat split. Qed.

Lemma light_sleep (d : Z) (c : Client) : light c (sleep d c).
Proof. by repeat split. Qed.

Lemma light_cancel (f : option nat) (c : Client) : light c (cancel f c).
Proof. destruct f; by repeat split. Qed.

Lemma light_cleanup (all : bool) (c : Client) : light c (cleanup all c).
Proof.
  unfold cleanup.
  set (c1 := match conn (st c) with Some k => emit (Closed k) c | None => c end).
  assert (light c c1) as H1 by (subst c1; destruct (conn (st c)); by repeat split).
  set (c2 := cancel (closeRead c1) c1).
  assert (light c1 c2) as H2 by apply light_cancel.
  set (c3 := cancel (closeExec c2) c2).
  assert (light c2 c3) as H3 by apply light_cancel.
  destruct all.
  - eapply light_trans; [|apply light_cancel].
    eapply light_trans; [|exact H3]. by eapply light_trans.
  - eapply light_trans; [|exact H3]. by eapply light_trans.
Qed.

Lemma cleanup_st (all : bool) (c : Client) : st (cleanup all c) = st c.
Proof.
  destruct c as [? ? [[?|] ? ? ? ? ? ?] ? ? [?|] [?|] [?|] ? ? ?], all;
    reflexivity.
Qed.

Lemma cleanup_Events (all : bool) (c : Client) :
  Events (cleanup all c) = Events c ∧ now (cleanup all c) = now c.
Proof.
  destruct c as [? ? [[?|] ? ? ? ? ? ?] ? ? [?|] [?|] [?|] ? ? ?], all;
    by split.
Qed.

Lemma grows_cancel (ks : list kind) (f : option nat) (c : Client) :
  KCancelled ∈ ks → grows ks c (cancel f c).
Proof. intros H. destruct f; [by apply grows_emit|apply grows_refl]. Qed.

Lemma cleanup_grows (all : bool) (c : Client) :
  grows [KClosed; KCancelled] c (cleanup all c).
Proof.
  unfold cleanup.
  set (c1 := match conn (st c) with Some k => emit (Closed k) c | None => c end).
  assert (grows [KClosed; KCancelled] c c1) as H1.
  { subst c1. destruct (conn (st c)); [apply grows_emit; kinds|apply grows_refl]. }
  set (c2 := cancel (closeRead c1) c1).
  assert (grows [KClosed; KCancelled] c1 c2) as H2 by (apply grows_cancel; kinds).
  set (c3 := cancel (closeExec c2) c2).
  assert (grows [KClosed; KCancelled] c2 c3) as H3 by (apply grows_cancel; kinds).
  destruct all.
  - eapply grows_trans; [|apply grows_cancel; kinds].
    eapply grows_trans; [|exact H3]. by eapply grows_trans.
  - eapply grows_trans; [|exact H3]. by eapply grows_trans.
Qed.

Definition held (f : option nat) : list nat :=
  match f with
  | Some k => [k]
  | None => []
  end.

(** The contexts [cleanup] cancels: those behind [closeRead] and
    [closeExec], and behind [closeLoop] when [all] is set. *)
Lemma cleanup_cancelled (all : bool) (c : Client) :
  cancelled (trace (cleanup all c))
  = cancelled (trace c) ++ held (closeRead c) ++ held (closeExec c)
      ++ (if all then held (closeLoop c) else []).
Proof.
  unfold cancelled.
  destruct c as [? ? [[?|] ? ? ? ? ? ?] ? ? [?|] [?|] [?|] ? ? ?], all;
    cbn; rewrite ?omap_app; cbn; rewrite <- ?app_assoc, ?app_nil_r; reflexivity.
Qed.

Lemma cleanup_closed (all : bool) (c : Client) :
  closed (trace (cleanup all c)) = closed (trace c) ++ held (conn (st c)).
Proof.
  unfold closed.
  destruct c as [? ? [[?|] ? ? ? ? ? ?] ? ? [?|] [?|] [?|] ? ? ?], all;
    cbn; rewrite ?omap_app; cbn; rewrite <- ?app_assoc, ?app_nil_r; reflexivity.
Qed.

Lemma cleanup_started (all : bool) (c : Client) :
  started (trace (cleanup all c)) = started (trace c).
Proof. apply (grows_started [KClosed; KCancelled]); [kinds|apply cleanup_grows]. Qed.

Lemma light_ctl (c c' : Client) : light c c' → ctl c' = ctl c.
Proof. by intros (_ & H & _). Qed.

Lemma ctl_fields (c c' : Client) :
  ctl c' = ctl c →
  nextCtx c' = nextCtx c ∧ closeRead c' = closeRead c
  ∧ closeExec c' = closeExec c ∧ closeLoop c' = closeLoop c.
Proof. unfold ctl. by intros [= -> -> -> ->]. Qed.

Lemma cleanup_ctx_ok (all : bool) (c : Client) : ctx_ok c → ctx_ok (cleanup all c).
Proof.
  intros (Hc & Hs & Hr & He & Hl).
  destruct (ctl_fields c (cleanup all c) (light_ctl _ _ (light_cleanup all c)))
    as (En & Er & Ee & El).
  unfold ctx_ok. rewrite En, Er, Ee, El, cleanup_started, cleanup_cancelled.
  repeat split; try done.
  rewrite !Forall_app. repeat split; try done.
  - unfold held. destruct (closeRead c) as [k|]; [|done].
    constructor; [|done]. by apply Hr.
  - unfold held. destruct (closeExec c) as [k|]; [|done].
    constructor; [|done]. by apply He.
  - destruct all; [|done]. unfold held. destruct (closeLoop c) as [k|]; [|done].
    constructor; [|done]. by apply Hl.
Qed.

(** A call that cancels nothing, starts nothing and is [light] keeps the
    contexts in order. *)
Lemma ctx_ok_light (ks : list kind) (c c' : Client) :
  KCancelled ∉ ks → KStarted ∉ ks →
  grows ks c c' → ctl c' = ctl c → ctx_ok c → ctx_ok c'.
Proof.
  intros Hk1 Hk2 Hg Hctl Hok.
  destruct (ctl_fields c c' Hctl) as (En & Er & Ee & El).
  unfold ctx_ok.
  rewrite En, Er, Ee, El, (grows_started ks c c'), (grows_cancelled ks c c');
    done.
Qed.

(** *** The sending path *)

Section Theory.
Context (E : Env).

(** The kinds of effect of a send, and of everything short of starting
    a goroutine. *)
Definition wire : list kind := [KSlept; KLogged; KEncoded].
Definition quiet : list kind :=
  [KClosed; KCancelled; KDialled; KEncoded; KCapListed; KSlept;
   KConnecting; KLogged].

Lemma chan_send_Done (ev : Event) (c c' : Client) :
  chan_send ev c = Done c' →
  c' = with_Events (Events c ++ [ev]) c ∧ (length (Events c) < eventsCap)%nat.
Proof.
  unfold chan_send. destruct (length (Events c) <? eventsCap)%nat eqn:H; [|done].
  intros [= <-]. split; [done|]. by apply Nat.ltb_lt.
Qed.

Lemma chan_send_room (ev : Event) (c : Client) :
  (length (Events c) < eventsCap)%nat →
  chan_send ev c = Done (with_Events (Events c ++ [ev]) c).
Proof.
  intros H. unfold chan_send. apply Nat.ltb_lt in H. by rewrite H.
Qed.

Lemma chan_send_light (ev : Event) (c c' : Client) :
  chan_send ev c = Done c' → light c c' ∧ trace c' = trace c ∧ now c' = now c.
Proof. intros H. apply chan_send_Done in H as [-> _]. by repeat split. Qed.

Lemma write_Done (ev : Event) (c c' : Client) (r : option error) :
  write E ev c = Done (c', r) →
  light c c' ∧ grows wire c c'
  ∧ sent (trace c') = sent (trace c) ++ [ev]
  ∧ Events c' = Events c ∧ now c' = now c
  ∧ ∃ w, writer (st c) = Some w ∧ r = encode E w ev (now c).
Proof.
  unfold write. destruct (Sensitive ev); cbn.
  - destruct (writer (st c)) as [w|] eqn:Hw; [|done]. intros [= <- <-].
    split_and!; try done.
    + apply grows_then_emit; [by apply grows_same|kinds].
    + unfold sent. cbn. by rewrite omap_app.
    + by exists w.
  - destruct (writer (st c)) as [w|] eqn:Hw; [|done]. intros [= <- <-].
    split_and!; try done.
    + apply grows_then_emit; [|kinds].
      apply grows_then_emit; [by apply grows_same|kinds].
    + unfold sent. cbn. by rewrite !omap_app, app_nil_r.
    + by exists w.
Qed.

Lemma write_total (ev : Event) (c : Client) (w : nat) :
  writer (st c) = Some w → ∃ c', write E ev c = Done (c', encode E w ev (now c)).
Proof.
  intros Hw. unfold write. destruct (Sensitive ev); cbn; rewrite Hw; by eexists.
Qed.

Lemma Send_Done (ev : Event) (c c' : Client) (r : option error) :
  Send E ev c = Done (c', r) →
  light c c' ∧ grows wire c c'
  ∧ sent (trace c') = sent (trace c) ++ [ev]
  ∧ Events c' = Events c
  ∧ ∃ w, writer (st c) = Some w.
Proof.
  unfold Send. destruct (AllowFlood (config c)).
  - intros H. apply write_Done in H as (H1 & H2 & H3 & H4 & _ & w & Hw & _).
    split_and!; try done. by exists w.
  - intros H. apply write_Done in H as (H1 & H2 & H3 & H4 & _ & w & Hw & _).
    split_and!.
    + eapply light_trans; [apply light_sleep|exact H1].
    + eapply grows_trans; [apply grows_sleep; kinds|exact H2].
    + rewrite H3. unfold sent. cbn. by rewrite omap_app, app_nil_r.
    + done.
    + by exists w.
Qed.

Lemma Send_total (ev : Event) (c : Client) (w : nat) :
  writer (st c) = Some w → ∃ c' r, Send E ev c = Done (c', r).
Proof.
  intros Hw. unfold Send. destruct (AllowFlood (config c)).
  - destruct (write_total ev c w Hw) as [c' H]. eauto.
  - destruct (write_total ev (sleep (rate E (st c) ev) c) w Hw) as [c' H]. eauto.
Qed.

Lemma write_all_Done (evs : list Event) (c c' : Client) (r : option error) :
  write_all E evs c = Done (c', r) →
  light c c' ∧ grows wire c c' ∧ Events c' = Events c ∧ now c' = now c.
Proof.
  revert c. induction evs as [|ev rest IH]; intros c; cbn.
  - intros [= <- <-]. split_and!; try done. apply grows_refl.
  - destruct (write E ev c) as [[c1 e1]| | |] eqn:Hw; try done. cbn.
    apply write_Done in Hw as (L1 & G1 & _ & E1 & N1 & _).
    destruct e1 as [e|].
    + by intros [= <- <-].
    + intros H. apply IH in H as (L2 & G2 & E2 & N2).
      split_and!; [by eapply light_trans|by eapply grows_trans|congruence..].
Qed.

Lemma light_session (c c' : Client) :
  light c c' →
  connected (st c') = connected (st c) ∧ connTime (st c') = connTime (st c)
  ∧ writer (st c') = writer (st c) ∧ conn (st c') = conn (st c).
Proof.
  intros (H & _). apply same_session_fields in H as (? & ? & ? & ? & ?). done.
Qed.

Lemma light_session_ok (c c' : Client) :
  light c c' → session_ok (st c) → session_ok (st c').
Proof. intros (H & _). by apply session_ok_same. Qed.

(** *** Connect *)

(** A stretch of a call that leaves the contexts and the reconnect
    bookkeeping alone and has effects of the kinds [ks] only. *)
Definition calm (ks : list kind) (c c' : Client) : Prop :=
  ctl c' = ctl c ∧ tries c' = tries c ∧ reconnecting c' = reconnecting c
  ∧ grows ks c c'.

Lemma calm_refl (ks : list kind) (c : Client) : calm ks c c.
Proof. split_and!; try done. apply grows_refl. Qed.

Lemma calm_trans (ks : list kind) (c1 c2 c3 : Client) :
  calm ks c1 c2 → calm ks c2 c3 → calm ks c1 c3.
Proof.
  intros (A1 & B1 & C1 & D1) (A2 & B2 & C2 & D2).
  split_and!; try congruence. by eapply grows_trans.
Qed.

Lemma calm_mono (ks ks' : list kind) (c c' : Client) :
  ks ⊆ ks' → calm ks c c' → calm ks' c c'.
Proof.
  intros Hsub (A & B & C & D). split_and!; try done. by eapply grows_mono.
Qed.

Lemma light_calm (ks : list kind) (c c' : Client) :
  light c c' → grows ks c c' → calm ks c c'.
Proof. intros (_ & A & _ & B & C) G. by split_and!. Qed.

Lemma calm_cleanup (all : bool) (c : Client) :
  calm [KClosed; KCancelled] c (cleanup all c).
Proof. apply light_calm; [apply light_cleanup|apply cleanup_grows]. Qed.

(** The effects of the handshake. *)
Definition shake : list kind := [KEncoded; KCapListed; KSlept; KLogged].

(** The last statements of a successful [Connect], from
    [c.tries = 0] on. *)
Definition established (c : Client) : Client :=
  let c6 := with_reconnecting false (with_tries 0 c) in
  start_loops (with_st (with_connected (now c6) (st c6)) c6).

Lemma connectMessages_spec (c : Client) :
  let r := connectMessages c in
  st r.1 = st c ∧ trace r.1 = trace c ∧ calm shake c r.1
  ∧ Events r.1 = Events c ∧ now r.1 = now c
  ∧ ∃ ev rest, r.2 = ev :: rest.
Proof.
  unfold connectMessages. cbn zeta.
  destruct (decide (Name (config c) = EmptyString));
    destruct (decide (Password (config c) = EmptyString)); cbn;
    (split_and!; try done;
     [split_and!; try done; by apply grows_same | by eexists _, _]).
Qed.

Lemma write_all_writer (ev : Event) (rest : list Event) (c c' : Client)
    (r : option error) :
  write_all E (ev :: rest) c = Done (c', r) → is_Some (writer (st c)).
Proof.
  cbn. destruct (write E ev c) as [[c1 e1]| | |] eqn:Hw; try done.
  apply write_Done in Hw as (_ & _ & _ & _ & _ & w & Hw & _).
  intros _. by exists w.
Qed.

Lemma handshake_Done (c c' : Client) (r : option error) :
  handshake E c = Done (c', r) →
  connected (st c) = false →
  match r with
  | Some _ => calm shake c c' ∧ connected (st c') = false
  | None =>
      ∃ c5, calm shake c c5 ∧ c' = established c5 ∧ is_Some (writer (st c5))
  end.
Proof.
  unfold handshake. intros H Hconn.
  set (c1 := with_st (with_codecs (st c)) c) in H.
  assert (calm shake c c1) as K1.
  { split_and!; try done. by apply grows_same. }
  assert (connected (st c1) = false) as S1 by done.
  destruct (chan_send (event INITIALIZED [] (ServerAddr c1)) c1)
    as [c2| | |] eqn:H2; try done.
  cbn [mbind outcome_bind] in H.
  apply chan_send_light in H2 as (L2 & T2 & _).
  assert (calm shake c1 c2) as K2 by (apply light_calm; [done|by apply grows_same]).
  destruct (light_session c1 c2 L2) as (S2 & _).
  destruct (connectMessages_spec c2) as (S3 & T3 & K3 & _ & _ & ev & rest & Hev).
  destruct (connectMessages c2) as [c3 evs]. cbn [fst snd] in *. subst evs.
  destruct (write_all E (ev :: rest) c3) as [[c4 e4]| | |] eqn:H4; try done.
  cbn [mbind outcome_bind] in H.
  pose proof (write_all_writer _ _ _ _ _ H4) as W3.
  apply write_all_Done in H4 as (L4 & G4 & _ & _).
  assert (calm shake c3 c4) as K4.
  { apply light_calm; [done|]. eapply grows_mono; [|exact G4]. kinds. }
  destruct (light_session c3 c4 L4) as (S4 & _ & W4 & _).
  assert (calm shake c c4) as K
    by (eapply calm_trans; [|exact K4]; eapply calm_trans; [|exact K3];
        eapply calm_trans; [exact K1|exact K2]).
  assert (connected (st c4) = false) as Sc4 by (rewrite S4, S3, S2; exact S1).
  destruct e4 as [e|].
  { injection H as <- <-. by split. }
  assert (calm shake c (emit CapListed c4)) as K5.
  { eapply calm_trans; [exact K|]. split_and!; try done. apply grows_emit. kinds. }
  destruct (listCAP E _ _) as [e|].
  { injection H as <- <-. by split. }
  injection H as <- <-. exists (emit CapListed c4). split_and!; try done.
  cbn. by rewrite W4.
Qed.

Definition config_errors : list error :=
  [ ErrNew "invalid server specified";
    ErrNew "invalid port (21-65535)";
    ErrNew "invalid nickname or user" ].

(** The sanity checks at the head of [Connect]. *)
Definition invalid_config (g : Config) : Prop :=
  Server g = EmptyString ∨ Port g < 21 ∨ 65535 < Port g
  ∨ IsValidNick E (Nick g) = false ∨ IsValidUser E (User g) = false.

Lemma Connect_invalid (c : Client) :
  invalid_config (config c) →
  ∃ e, Connect E c = Done (c, Some e) ∧ e ∈ config_errors.
Proof.
  intros H. unfold Connect. cbn zeta.
  destruct (decide (Server (config c) = EmptyString)) as [|Hs].
  { eexists. split; [done|]. unfold config_errors. set_solver. }
  destruct ((Port (config c) <? 21) || (65535 <? Port (config c))) eqn:Hp.
  { eexists. split; [done|]. unfold config_errors. set_solver. }
  destruct (negb (IsValidNick E (Nick (config c)))
            || negb (IsValidUser E (User (config c)))) eqn:Hn.
  { eexists. split; [done|]. unfold config_errors. set_solver. }
  exfalso. apply orb_false_iff in Hp as [Hp1 Hp2], Hn as [Hn1 Hn2].
  apply Z.ltb_ge in Hp1, Hp2. apply negb_false_iff in Hn1, Hn2.
  destruct H as [H|[H|[H|[H|H]]]]; try done; try lia; congruence.
Qed.

(** The effects of [Connect] up to its ["connecting to"] line, and after
    it. *)
Definition before_dial : list kind := [KClosed; KCancelled; KConnecting].
Definition after_dial : list kind := KDialled :: shake.

(** The shape of every return of [Connect]: either a sanity check
    failed and nothing happened, or the old session was torn down, the
    attempt was logged at [c3], and the rest dialled and shook hands. *)
Lemma Connect_Done (c c' : Client) (r : option error) :
  Connect E c = Done (c', r) →
  (c' = c ∧ invalid_config (config c) ∧ ∃ e, r = Some e ∧ e ∈ config_errors)
  ∨ (¬ invalid_config (config c)
     ∧ ∃ c3, calm before_dial c c3
             ∧ attempts (trace c3) = S (attempts (trace c))
             ∧ (ctx_ok c → ctx_ok c3)
             ∧ match r with
               | Some _ => calm after_dial c3 c' ∧ connected (st c') = false
               | None =>
                   ∃ c5, calm after_dial c3 c5 ∧ c' = established c5
                         ∧ is_Some (writer (st c5))
               end).
Proof.
  unfold Connect. cbn zeta.
  destruct (decide (Server (config c) = EmptyString)) as [Hs|Hs].
  { intros [= <- <-]. left. split_and!; [done|by left|].
    eexists. split; [done|]. unfold config_errors. set_solver. }
  destruct ((Port (config c) <? 21) || (65535 <? Port (config c))) eqn:Hp.
  { intros [= <- <-]. left. split_and!; [done| |].
    - apply orb_true_iff in Hp as [Hp|Hp]; apply Z.ltb_lt in Hp;
        [right; by left|right; right; by left].
    - eexists. split; [done|]. unfold config_errors. set_solver. }
  destruct (negb (IsValidNick E (Nick (config c)))
            || negb (IsValidUser E (User (config c)))) eqn:Hn.
  { intros [= <- <-]. left. split_and!; [done| |].
    - apply orb_true_iff in Hn as [Hn|Hn]; apply negb_true_iff in Hn;
        [right; right; right; by left|by do 4 right].
    - eexists. split; [done|]. unfold config_errors. set_solver. }
  assert (¬ invalid_config (config c)) as Hvalid.
  { apply orb_false_iff in Hp as [Hp1 Hp2], Hn as [Hn1 Hn2].
    apply Z.ltb_ge in Hp1, Hp2. apply negb_false_iff in Hn1, Hn2.
    intros [H|[H|[H|[H|H]]]]; try done; try lia; congruence. }
  set (c1 := cleanup false c).
  set (c2 := with_st newState c1).
  set (c3 := emit (Logged (LogConnecting (ServerAddr c2))) c2).
  assert (calm before_dial c c1) as K1.
  { eapply calm_mono; [|apply calm_cleanup]. kinds. }
  assert (attempts (trace c1) = attempts (trace c)) as A1.
  { apply (grows_attempts [KClosed; KCancelled]); [kinds|apply cleanup_grows]. }
  assert (calm [KConnecting] c1 c3) as K13.
  { split_and!; try done. apply grows_then_emit; [by apply grows_same|kinds]. }
  assert (calm before_dial c c3) as K3.
  { eapply calm_trans; [exact K1|]. eapply calm_mono; [|exact K13]. kinds. }
  assert (attempts (trace c3) = S (attempts (trace c))) as A3.
  { rewrite <- A1. unfold attempts. cbn. rewrite omap_app, length_app. cbn. lia. }
  assert (ctx_ok c → ctx_ok c3) as O3.
  { intros Hok. destruct K13 as (Hctl & _ & _ & Hg).
    apply (ctx_ok_light [KConnecting] c1 c3); [kinds|kinds|done|done|].
    by apply cleanup_ctx_ok. }
  assert (connected (st c3) = false) as S3 by done.
  intros H. right. split; [done|]. exists c3. split_and!; try done.
  destruct (Conn (config c3)) as [k|].
  - apply handshake_Done in H; [|done].
    destruct r as [e|].
    + destruct H as (K & Hc). split; [|done].
      eapply calm_trans; [|eapply calm_mono; [|exact K]; kinds].
      split_and!; try done. by apply grows_same.
    + destruct H as (c5 & K & -> & W). exists c5. split_and!; try done.
      eapply calm_trans; [|eapply calm_mono; [|exact K]; kinds].
      split_and!; try done. by apply grows_same.
  - set (c4 := emit (Dialled _ _) c3) in H.
    assert (calm after_dial c3 c4) as K4.
    { split_and!; try done. apply grows_emit. kinds. }
    destruct (dial E _ _ _) as [k|err].
    + apply handshake_Done in H; [|done].
      destruct r as [e|].
      * destruct H as (K & Hc). split; [|done].
        eapply calm_trans; [exact K4|].
        eapply calm_trans; [|eapply calm_mono; [|exact K]; kinds].
        split_and!; try done. by apply grows_same.
      * destruct H as (c5 & K & -> & W). exists c5. split_and!; try done.
        eapply calm_trans; [exact K4|].
        eapply calm_trans; [|eapply calm_mono; [|exact K]; kinds].
        split_and!; try done. by apply grows_same.
    + injection H as <- <-. by split.
Qed.



Lemma established_spec (c : Client) :
  closeRead (established c) = Some (S (nextCtx c))
  ∧ closeExec (established c) = closeExec c
  ∧ closeLoop (established c) = closeLoop c
  ∧ nextCtx (established c) = S (S (nextCtx c))
  ∧ trace (established c)
    = trace c ++ [Started readLoop (nextCtx c); Started execLoop (S (nextCtx c))]
  ∧ connected (st (established c)) = true
  ∧ connTime (st (established c)) = Some (now c)
  ∧ writer (st (established c)) = writer (st c)
  ∧ tries (established c) = 0
  ∧ reconnecting (established c) = false.
Proof.
  destruct c. unfold established, start_loops, WithCancel, emit. cbn.
  split_and!; try done. by rewrite <- app_assoc.
Qed.

Lemma calm_started (ks : list kind) (c c' : Client) :
  KStarted ∉ ks → calm ks c c' → started (trace c') = started (trace c).
Proof. intros Hk (_ & _ & _ & G). by eapply grows_started. Qed.

Lemma calm_attempts (ks : list kind) (c c' : Client) :
  KConnecting ∉ ks → calm ks c c' → attempts (trace c') = attempts (trace c).
Proof. intros Hk (_ & _ & _ & G). by eapply grows_attempts. Qed.

Lemma calm_ctx_ok (ks : list kind) (c c' : Client) :
  KCancelled ∉ ks → KStarted ∉ ks → calm ks c c' → ctx_ok c → ctx_ok c'.
Proof. intros H1 H2 (Hctl & _ & _ & G). by eapply ctx_ok_light. Qed.

Lemma established_started (c : Client) :
  started (trace (established c))
  = started (trace c) ++ [(readLoop, nextCtx c); (execLoop, S (nextCtx c))].
Proof.
  destruct (established_spec c) as (_ & _ & _ & _ & -> & _).
  unfold started. by rewrite omap_app.
Qed.

Lemma established_cancelled (c : Client) :
  cancelled (trace (established c)) = cancelled (trace c).
Proof.
  destruct (established_spec c) as (_ & _ & _ & _ & -> & _).
  unfold cancelled. rewrite omap_app. cbn. by rewrite app_nil_r.
Qed.

Lemma established_attempts (c : Client) :
  attempts (trace (established c)) = attempts (trace c).
Proof.
  destruct (established_spec c) as (_ & _ & _ & _ & -> & _).
  unfold attempts. rewrite omap_app. cbn. by rewrite app_nil_r.
Qed.

Lemma established_ctx_ok (c : Client) : ctx_ok c → ctx_ok (established c).
Proof.
  intros (Hc & Hs & Hr & He & Hl).
  destruct (established_spec c) as (Er & Ee & El & En & _).
  unfold ctx_ok.
  rewrite established_started, established_cancelled, Er, Ee, El, En.
  split_and!.
  - eapply Forall_impl; [exact Hc|]. cbn. lia.
  - apply Forall_app. split.
    + eapply Forall_impl; [exact Hs|]. cbn. lia.
    + repeat constructor; cbn; lia.
  - intros k [= <-]. lia.
  - intros k Hk. specialize (He k Hk). lia.
  - intros k Hk. specialize (Hl k Hk). lia.
Qed.

(** One call of [Connect] logs at most one attempt. *)
Lemma Connect_attempts (c c' : Client) (r : option error) :
  Connect E c = Done (c', r) →
  (attempts (trace c') <= S (attempts (trace c)))%nat.
Proof.
  intros H. apply Connect_Done in H as [(-> & _)|(_ & c3 & _ & A3 & _ & H)].
  { lia. }
  destruct r as [e|].
  - destruct H as (K & _).
    rewrite (calm_attempts after_dial c3 c'), A3; [lia|kinds|done].
  - destruct H as (c5 & K & -> & _).
    rewrite established_attempts, (calm_attempts after_dial c3 c5), A3;
      [lia|kinds|done].
Qed.

Lemma Connect_session_ok (c c' : Client) (r : option error) :
  Connect E c = Done (c', r) → session_ok (st c) → session_ok (st c').
Proof.
  intros H Hok. apply Connect_Done in H as [(-> & _)|(_ & c3 & _ & _ & _ & H)].
  { done. }
  destruct r as [e|].
  - destruct H as (_ & Hc). unfold session_ok. by rewrite Hc.
  - destruct H as (c5 & _ & -> & W).
    destruct (established_spec c5) as (_ & _ & _ & _ & _ & _ & Ht & Hw & _).
    unfold session_ok. rewrite Ht, Hw. intros _. split; [by eexists|done].
Qed.

Lemma Connect_ctx_ok (c c' : Client) (r : option error) :
  Connect E c = Done (c', r) → ctx_ok c → ctx_ok c'.
Proof.
  intros H Hok. apply Connect_Done in H as [(-> & _)|(_ & c3 & _ & _ & O3 & H)].
  { done. }
  destruct r as [e|].
  - destruct H as (K & _).
    apply (calm_ctx_ok after_dial c3 c'); [kinds|kinds|done|by apply O3].
  - destruct H as (c5 & K & -> & _). apply established_ctx_ok.
    apply (calm_ctx_ok after_dial c3 c5); [kinds|kinds|done|by apply O3].
Qed.

(** *** reconnect *)

Lemma retry_body_spec (c : Client) :
  st (retry_body c) = st c ∧ ctl (retry_body c) = ctl c
  ∧ config (retry_body c) = config c
  ∧ reconnecting (retry_body c) = reconnecting c
  ∧ Events (retry_body c) = Events c
  ∧ tries (retry_body c) = tries c + 1
  ∧ grows [KLogged; KSlept] c (retry_body c).
Proof.
  unfold retry_body. cbn zeta. split_and!; try done.
  apply grows_trans with (emit (Logged (LogRetry (ServerAddr c)
                            (ReconnectDelay (config c)) (tries c))) c).
  - apply grows_emit. kinds.
  - eapply grows_trans; [apply grows_sleep; kinds|]. by apply grows_same.
Qed.

Lemma retry_loop_Done (fuel : nat) (err : option error) (c c' : Client) :
  retry_loop fuel err c = Done c' →
  st c' = st c ∧ ctl c' = ctl c ∧ config c' = config c
  ∧ reconnecting c' = reconnecting c ∧ Events c' = Events c
  ∧ grows [KLogged; KSlept] c c'
  ∧ tries c <= tries c'.
Proof.
  revert c. induction fuel as [|fuel IH]; intros c; cbn.
  - destruct err; [destruct (tries c <? Retries (config c))|];
      intros [= <-]; split_and!; try done; try lia; apply grows_refl.
  - destruct err as [e|].
    + destruct (tries c <? Retries (config c)).
      * intros H. apply IH in H as (A & B & C & D & F & G & T).
        destruct (retry_body_spec c) as (A' & B' & C' & D' & F' & T' & G').
        split_and!; try congruence; [by eapply grows_trans|lia].
      * intros [= <-]. split_and!; try done; try lia. apply grows_refl.
    + intros [= <-]. split_and!; try done; try lia. apply grows_refl.
Qed.

(** The loop ends: at most [Retries - tries] rounds are needed. *)
Lemma retry_loop_total (fuel : nat) (err : option error) (c : Client) :
  (Z.to_nat (Retries (config c) - tries c) <= fuel)%nat →
  ∃ c', retry_loop fuel err c = Done c'.
Proof.
  revert c. induction fuel as [|fuel IH]; intros c Hfuel; cbn.
  - destruct err; [|by eexists].
    destruct (tries c <? Retries (config c)) eqn:Hlt; [|by eexists].
    apply Z.ltb_lt in Hlt. lia.
  - destruct err; [|by eexists].
    destruct (tries c <? Retries (config c)) eqn:Hlt; [|by eexists].
    apply IH. destruct (retry_body_spec c) as (_ & _ & -> & _ & _ & -> & _).
    apply Z.ltb_lt in Hlt. lia.
Qed.

(** The rounds of the loop: one wait each, and no call of [Connect]. *)
Lemma retry_loop_rounds (fuel : nat) (e : error) (c c' : Client) :
  retry_loop fuel (Some e) c = Done c' →
  tries c' = Z.max (tries c) (Retries (config c))
  ∧ attempts (trace c') = attempts (trace c)
  ∧ Z.of_nat (length (slept (trace c')))
    = Z.of_nat (length (slept (trace c))) + (tries c' - tries c).
Proof.
  revert c. induction fuel as [|fuel IH]; intros c; cbn.
  - destruct (tries c <? Retries (config c)) eqn:Hlt; [done|].
    intros [= <-]. apply Z.ltb_ge in Hlt. split_and!; [lia|done|lia].
  - destruct (tries c <? Retries (config c)) eqn:Hlt.
    + intros H. apply IH in H as (T & A & S').
      destruct (retry_body_spec c) as (_ & _ & Hg & _ & _ & Ht & G).
      rewrite Hg, Ht in T. apply Z.ltb_lt in Hlt.
      split_and!; [lia| |].
      * rewrite A. apply (grows_attempts [KLogged; KSlept]); [kinds|done].
      * rewrite S', Ht.
        assert (length (slept (trace (retry_body c)))
                = S (length (slept (trace c)))) as ->; [|lia].
        unfold retry_body, sleep, emit, slept. cbn.
        rewrite !omap_app, !length_app. cbn. lia.
    + intros [= <-]. apply Z.ltb_ge in Hlt. split_and!; [lia|done|lia].
Qed.

Lemma reconnect_guard (b : bool) (c : Client) :
  reconnecting c = true → reconnect E b c = Done (c, Some ErrDisconnected).
Proof. intros H. unfold reconnect. by rewrite H. Qed.

(** What holds of a stretch of [reconnect]: the three facts the
    theorems below need, each carried from one state to the next. *)
Definition carries (c c' : Client) : Prop :=
  (session_ok (st c) → session_ok (st c'))
  ∧ (ctx_ok c → ctx_ok c')
  ∧ (attempts (trace c') = attempts (trace c)).

Lemma carries_refl (c : Client) : carries c c.
Proof. by split_and!. Qed.

Lemma carries_trans (c1 c2 c3 : Client) :
  carries c1 c2 → carries c2 c3 → carries c1 c3.
Proof.
  intros (A1 & B1 & C1) (A2 & B2 & C2). split_and!; [auto|auto|congruence].
Qed.

Lemma carries_cleanup (all : bool) (c : Client) : carries c (cleanup all c).
Proof.
  split_and!.
  - by rewrite cleanup_st.
  - apply cleanup_ctx_ok.
  - apply (grows_attempts [KClosed; KCancelled]); [kinds|apply cleanup_grows].
Qed.

Lemma carries_light (c c' : Client) :
  light c c' → grows wire c c' → carries c c'.
Proof.
  intros L G. split_and!.
  - by apply light_session_ok.
  - apply (ctx_ok_light wire); [kinds|kinds|done|by apply light_ctl].
  - apply (grows_attempts wire); [kinds|done].
Qed.

Lemma carries_retry_loop (fuel : nat) (err : option error) (c c' : Client) :
  retry_loop fuel err c = Done c' → carries c c'.
Proof.
  intros H. apply retry_loop_Done in H as (A & B & _ & _ & _ & G & _).
  split_and!.
  - by rewrite A.
  - by apply (ctx_ok_light [KLogged; KSlept]); [kinds|kinds|..].
  - apply (grows_attempts [KLogged; KSlept]); [kinds|done].
Qed.

Lemma reconnect_Done (b : bool) (c c' : Client) (r : option error) :
  reconnect E b c = Done (c', r) →
  reconnecting c = false →
  reconnecting c' = false
  ∧ (attempts (trace c') <= S (attempts (trace c)))%nat
  ∧ (session_ok (st c) → session_ok (st c'))
  ∧ (ctx_ok c → ctx_ok c').
Proof.
  unfold reconnect. intros H Hrec. rewrite Hrec in H. cbn zeta in H.
  set (c1 := with_reconnecting true c) in H.
  set (c2 := cleanup false c1) in H.
  set (c3 := if ReconnectDelay (config c2) <? 10 * second
             then with_config (with_ReconnectDelay (25 * second) (config c2)) c2
             else c2) in H.
  assert (carries c c3) as K3.
  { apply carries_trans with c2.
    - apply (carries_cleanup false c1).
    - clear H. subst c3.
      destruct (ReconnectDelay (config c2) <? 10 * second); [|apply carries_refl].
      split_and!; [intros H'; exact H'|intros H'; exact H'|reflexivity]. }
  destruct ((Retries (config c3) <? 1) && negb b).
  { cbn in H. injection H as <- <-. destruct K3 as (A & B & C).
    split_and!; [done| |exact A|exact B].
    change (attempts (trace c3) <= S (attempts (trace c)))%nat. lia. }
  set (c5 := sleep _ (emit _ c3)) in H.
  assert (carries c3 c5) as K5.
  { apply carries_light.
    - eapply light_trans; [apply light_emit|apply light_sleep].
    - subst c5. eapply grows_trans; [|apply grows_sleep; kinds].
      apply grows_emit. kinds. }
  destruct (Connect E c5) as [[c6 err]| | |] eqn:HC; try done.
  cbn [mbind outcome_bind] in H.
  destruct (retry_loop _ err c6) as [c7| | |] eqn:HR; try done.
  cbn [mbind outcome_bind] in H.
  pose proof (carries_retry_loop _ _ _ _ HR) as K7.
  assert ((session_ok (st c) → session_ok (st c7))
          ∧ (ctx_ok c → ctx_ok c7)
          ∧ (attempts (trace c7) <= S (attempts (trace c)))%nat) as (A & B & C).
  { destruct K3 as (A3 & B3 & C3), K5 as (A5 & B5 & C5), K7 as (A7 & B7 & C7).
    split_and!.
    - intros Hok. apply A7. eapply Connect_session_ok; [exact HC|]. auto.
    - intros Hok. apply B7. eapply Connect_ctx_ok; [exact HC|]. auto.
    - rewrite C7. pose proof (Connect_attempts _ _ _ HC). lia. }
  destruct err as [e|].
  - cbn in H. injection H as <- <-.
    destruct (carries_cleanup false c7) as (A' & B' & C').
    split_and!; [done| |intros Hok; apply A', A, Hok|intros Hok; apply B', B, Hok].
    change (attempts (trace (cleanup false c7)) <= S (attempts (trace c)))%nat.
    lia.
  - cbn in H. injection H as <- <-. by split_and!.
Qed.

Lemma write_all_fuel (evs : list Event) (c : Client) :
  write_all E evs c ≠ OutOfFuel.
Proof.
  revert c. induction evs as [|ev rest IH]; intros c; [done|].
  cbn [write_all]. unfold write.
  destruct (writer (st _)) as [w|]; [|done].
  cbn [mbind outcome_bind]. destruct (encode E w ev _); [done|apply IH].
Qed.

Lemma handshake_fuel (c : Client) : handshake E c ≠ OutOfFuel.
Proof.
  unfold handshake. cbn zeta. unfold chan_send.
  destruct (_ <? _)%nat; [|done]. cbn [mbind outcome_bind].
  destruct (connectMessages _) as [c3 evs].
  pose proof (write_all_fuel evs c3) as Hw.
  destruct (write_all E evs c3) as [[c4 [e|]]| | |]; try done.
  cbn [mbind outcome_bind]. by destruct (listCAP E _ _).
Qed.

Lemma Connect_fuel (c : Client) : Connect E c ≠ OutOfFuel.
Proof.
  unfold Connect. cbn zeta.
  destruct (decide _); [done|]. destruct (_ || _); [done|].
  destruct (_ || _); [done|].
  destruct (Conn _); [apply handshake_fuel|].
  destruct (dial E _ _ _); [apply handshake_fuel|done].
Qed.

(** [reconnect] never runs out of steps: the loop gets the rounds it can
    need. *)
Lemma reconnect_fuel (b : bool) (c : Client) : reconnect E b c ≠ OutOfFuel.
Proof.
  unfold reconnect. destruct (reconnecting c); [done|]. cbn zeta.
  set (c3 := if _ <? _ then _ else _).
  destruct ((Retries (config c3) <? 1) && negb b); [done|].
  set (c5 := sleep _ (emit _ c3)).
  pose proof (Connect_fuel c5) as HC.
  destruct (Connect E c5) as [[c6 err]| | |]; try done.
  cbn [mbind outcome_bind].
  destruct (retry_loop_total (Z.to_nat (Retries (config c6) - tries c6)) err c6)
    as [c7 ->]; [lia|].
  cbn [mbind outcome_bind]. by destruct err.
Qed.

(** *** The command builders and the ways out *)

Arguments cleanup : simpl never.




(** [quit]: the session is the one before the call, but for the time of
    the last write; the transport is closed. *)
Lemma quit_Done (b : bool) (c c' : Client) :
  quit E b c = Done c' →
  light c c' ∧ carries c c'
  ∧ closed (trace c') = closed (trace c) ++ held (conn (st c))
  ∧ Events c' = Events c ++ [event DISCONNECTED [] (ServerAddr c)].
Proof.
  unfold quit.
  destruct (if b then _ else _) as [c1| | |] eqn:H1; try done.
  cbn [mbind outcome_bind].
  assert (light c c1 ∧ grows wire c c1 ∧ Events c1 = Events c) as (L1 & G1 & E1).
  { destruct b.
    - destruct (Send E _ c) as [[c0 e0]| | |] eqn:HS; try done.
      cbn in H1. injection H1 as <-.
      by apply Send_Done in HS as (L & G & _ & Ev & _).
    - injection H1 as <-. split_and!; [apply light_refl|apply grows_refl|done]. }
  destruct (chan_send _ c1) as [c2| | |] eqn:H2; try done.
  cbn [mbind outcome_bind]. intros [= <-].
  pose proof (chan_send_Done _ _ _ H2) as [Hc2 _].
  apply chan_send_light in H2 as (L2 & T2 & _).
  assert (light c c2) as L by (by eapply light_trans).
  assert (grows wire c c2) as G.
  { eapply grows_trans; [exact G1|]. by apply grows_same. }
  split_and!.
  - eapply light_trans; [exact L|apply light_cleanup].
  - eapply carries_trans; [by apply carries_light|apply carries_cleanup].
  - rewrite cleanup_closed.
    destruct (light_session c c2 L) as (_ & _ & _ & ->). f_equal.
    unfold closed. apply (grows_omap _ KClosed wire); [|kinds|done].
    by intros [| | | | | | |[]].
  - destruct (cleanup_Events false c2) as [-> _]. rewrite Hc2. cbn.
    rewrite E1. do 3 f_equal. unfold ServerAddr.
    destruct L1 as (_ & _ & -> & _). done.
Qed.




(** [quit] and [Stop] return when the queue has room for what they put
    on it and the encoder is there. *)
Lemma Quit_total (c : Client) (w : nat) :
  writer (st c) = Some w →
  (length (Events c) < eventsCap)%nat →
  ∃ c', Quit E c = Done c'.
Proof.
  intros Hw Hroom. unfold Quit, quit.
  destruct (Send_total (event QUIT [] "disconnecting...") c w Hw) as (c1 & r & HS).
  rewrite HS. cbn [mbind outcome_bind].
  apply Send_Done in HS as (_ & _ & _ & Ev & _).
  rewrite chan_send_room by (by rewrite Ev). cbn. by eexists.
Qed.

Lemma Stop_total (c : Client) :
  (S (length (Events c)) < eventsCap)%nat →
  ∃ c', Stop E c = Done c'.
Proof.
  intros Hroom. unfold Stop, quit. cbn [mbind outcome_bind].
  rewrite chan_send_room by lia. cbn [mbind outcome_bind].
  rewrite chan_send_room; [by eexists|].
  destruct (cleanup_Events false
              (with_Events (Events c ++ [event DISCONNECTED [] (ServerAddr c)]) c))
    as [-> _].
  cbn. rewrite length_app. cbn. lia.
Qed.

(** *** What every reachable client satisfies *)





End Theory.

Arguments cleanup : simpl never.

(** *** A small world to run the supervisor in *)

(** Names that are not empty, and channels that start with [#], have a
    second character and at most 50 in all.  [up] says whether the server
    answers the dial. *)
Definition plain_name (s : string) : bool :=
  match s with
  | EmptyString => false
  | String _ _ => true
  end.

Definition channel_name (s : string) : bool :=
  match s with
  | String "#" (String _ _) => (String.length s <=? 50)%nat
  | _ => false
  end.

Definition world (up : bool) : Env :=
  mkEnv plain_name plain_name channel_name 510
        (fun _ _ _ => if up then inl 7%nat else inr (ErrExternal 1))
        (fun _ _ _ => None)
        (fun _ _ => 2)
        (fun _ _ => None).

Definition gopher : Config :=
  mkConfig "irc.example.org" 6667 EmptyString "gopher" "gopher" EmptyString
           None false 3 false 0.

Definition idle : Client := New gopher 0.

(** The client after one successful [Connect]. *)
Definition online : Client :=
  match Connect (world true) idle with
  | Done (c, _) => c
  | _ => idle
  end.

Lemma Connect_idle : Connect (world true) idle = Done (online, None).
Proof. vm_compute. reflexivity. Defined.

Lemma reachable_idle (E : Env) : reachable E idle.
Proof. apply reach_New. Defined.

Lemma reachable_online : reachable (world true) online.
Proof.
  apply (reach_step (world true) idle online (reachable_idle _)).
  exact (step_Connect (world true) idle online None Connect_idle).
Defined.

(** *** Connect *)

(** [Connect] with an empty server, a port outside 21..65535 or a
    nickname or user name that is not valid returns one of the three
    configuration errors and leaves the client and the world as they
    were: nothing is torn down, dialled or started. *)
Theorem Connect_rejects_bad_config (E : Env) (c : Client) :
  invalid_config E (config c) →
  ∃ e, Connect E c = Done (c, Some e) ∧ e ∈ config_errors.
Proof. apply Connect_invalid. Qed.

(** The configuration of [gopher] with port 0. *)
Definition port0 : Config :=
  mkConfig "irc.example.org" 0 EmptyString "gopher" "gopher" EmptyString
           None false 3 false 0.

Lemma Connect_rejects_bad_config_witness :
  ∃ e, Connect (world true) (with_config port0 online)
       = Done (with_config port0 online, Some e)
       ∧ e ∈ config_errors.
Proof.
  apply (Connect_rejects_bad_config (world true) (with_config port0 online)).
  right. left. vm_compute. reflexivity.
Defined.





Lemma Connect_success_shape (E : Env) (c c' : Client) :
  Connect E c = Done (c', None) →
  started (trace c')
  = started (trace c) ++ [(readLoop, nextCtx c); (execLoop, S (nextCtx c))]
  ∧ closeRead c' = Some (S (nextCtx c))
  ∧ closeExec c' = closeExec c
  ∧ closeLoop c' = closeLoop c
  ∧ connected (st c') = true
  ∧ connTime (st c') = Some (now c')
  ∧ tries c' = 0
  ∧ reconnecting c' = false.
Proof.
  intros H.
  apply Connect_Done in H as [(_ & _ & e & He & _)|(_ & c3 & K3 & _ & _ & H)];
    [done|].
  destruct H as (c5 & K5 & -> & _).
  assert (calm quiet c c5) as Kq.
  { eapply calm_trans; eapply calm_mono; [|exact K3| |exact K5]; kinds. }
  destruct (ctl_fields c c5 (proj1 Kq)) as (En & Er & Ee & El).
  destruct (established_spec c5) as (A1 & A2 & A3 & _ & _ & A6 & A7 & _ & A9 & A10).
  rewrite established_started, (calm_started quiet c c5), En by (kinds || done).
  split_and!; try done; congruence.
Qed.

(** A [Connect] that succeeds starts the read loop and the dispatch loop,
    each under a context made for it, and nothing else; the session is
    connected and stamped with the current time, the retry counter is
    zero.  [closeRead] then holds the cancel function of the dispatch
    loop's context, and [closeExec] and [closeLoop] are what they were. *)
Theorem Connect_success_starts_both_loops (E : Env) (c c' : Client) :
  Connect E c = Done (c', None) →
  started (trace c')
  = started (trace c) ++ [(readLoop, nextCtx c); (execLoop, S (nextCtx c))]
  ∧ closeRead c' = Some (S (nextCtx c))
  ∧ closeExec c' = closeExec c
  ∧ closeLoop c' = closeLoop c
  ∧ connected (st c') = true
  ∧ connTime (st c') = Some (now c')
  ∧ tries c' = 0
  ∧ reconnecting c' = false.
Proof. apply Connect_success_shape. Qed.

Lemma Connect_success_starts_both_loops_witness :
  started (trace online) = [(readLoop, 0%nat); (execLoop, 1%nat)]
  ∧ closeRead online = Some 1%nat
  ∧ closeExec online = None
  ∧ closeLoop online = None
  ∧ connected (st online) = true
  ∧ connTime (st online) = Some (now online)
  ∧ tries online = 0
  ∧ reconnecting online = false.
Proof.
  exact (Connect_success_starts_both_loops (world true) idle online Connect_idle).
Defined.

(** *** cleanup *)

(** [cleanup] changes no field of the client: the session, with its
    connected flag, and the three cancel functions stay as they are.  It
    closes the transport when there is one, calls the cancel functions
    behind [closeRead] and [closeExec], and the one behind [closeLoop]
    only when [all] is set; it starts nothing. *)
Theorem cleanup_only_closes_and_cancels (all : bool) (c : Client) :
  with_trace (trace c) (cleanup all c) = c
  ∧ closed (trace (cleanup all c)) = closed (trace c) ++ held (conn (st c))
  ∧ cancelled (trace (cleanup all c))
    = cancelled (trace c) ++ held (closeRead c) ++ held (closeExec c)
        ++ (if all then held (closeLoop c) else [])
  ∧ started (trace (cleanup all c)) = started (trace c)
  ∧ sent (trace (cleanup all c)) = sent (trace c).
Proof.
  split_and!.
  - destruct c as [? ? [[?|] ? ? ? ? ? ?] ? ? [?|] [?|] [?|] ? ? ?], all;
      reflexivity.
  - apply cleanup_closed.
  - apply cleanup_cancelled.
  - apply cleanup_started.
  - apply (grows_sent [KClosed; KCancelled]); [kinds|apply cleanup_grows].
Qed.



(** *** reconnect *)

(** The client after a remote-invoked [reconnect] the server did not
    answer. *)
Definition gave_up : Client :=
  match reconnect (world false) true idle with
  | Done (c, _) => c
  | _ => idle
  end.

Lemma reconnect_idle_refused :
  reconnect (world false) true idle = Done (gave_up, Some (ErrExternal 1)).
Proof. vm_compute. reflexivity. Defined.

(** [reconnect] always comes to an end of its loop, and when it returns:
    it has logged at most one connection attempt, whatever [Retries] is;
    the [reconnecting] flag is what it was before the call; and a call
    made while the flag is set returns [ErrDisconnected] and leaves the
    client and the world untouched. *)
Theorem reconnect_attempts_once (E : Env) (b : bool) (c : Client) :
  reconnect E b c ≠ OutOfFuel
  ∧ ∀ c' r, reconnect E b c = Done (c', r) →
      (attempts (trace c') <= S (attempts (trace c)))%nat
      ∧ reconnecting c' = reconnecting c
      ∧ (reconnecting c = true → c' = c ∧ r = Some ErrDisconnected).
Proof.
  split; [apply reconnect_fuel|]. intros c' r H.
  destruct (reconnecting c) eqn:Hrec.
  - rewrite reconnect_guard in H by done. injection H as <- <-.
    split_and!; [lia|done|done].
  - apply reconnect_Done in H as (A & B & _); [|done].
    split_and!; [done|done|done].
Qed.

Lemma reconnect_attempts_once_witness :
  (attempts (trace gave_up) <= S (attempts (trace idle)))%nat
  ∧ reconnecting gave_up = reconnecting idle
  ∧ (reconnecting idle = true → gave_up = idle ∧ Some (ErrExternal 1) = Some ErrDisconnected).
Proof.
  exact (proj2 (reconnect_attempts_once (world false) true idle)
           gave_up (Some (ErrExternal 1)) reconnect_idle_refused).
Defined.

(** The delay [reconnect] works with: 25 seconds when the configured
    delay is under 10 seconds. *)
Definition floored (d : Z) : Z := if d <? 10 * second then 25 * second else d.

(** [reconnect(false)] with [Retries] below 1: the session is torn down,
    the delay floor is written into the configuration, and
    [ErrDisconnected] comes back without a wait and without a connection
    attempt. *)
Theorem reconnect_without_retries (E : Env) (c : Client) :
  reconnecting c = false →
  Retries (config c) < 1 →
  ∃ c', reconnect E false c = Done (c', Some ErrDisconnected)
        ∧ slept (trace c') = slept (trace c)
        ∧ attempts (trace c') = attempts (trace c)
        ∧ closed (trace c') = closed (trace c) ++ held (conn (st c))
        ∧ ReconnectDelay (config c') = floored (ReconnectDelay (config c))
        ∧ st c' = st c.
Proof.
  intros Hrec Hret. unfold reconnect. rewrite Hrec. cbn zeta.
  set (c2 := cleanup false (with_reconnecting true c)).
  assert (config c2 = config c) as Hg.
  { destruct (light_cleanup false (with_reconnecting true c)) as (_ & _ & Hc & _).
    exact Hc. }
  assert (grows [KClosed; KCancelled] c c2) as G.
  { eapply grows_trans; [|apply cleanup_grows]. by apply grows_same. }
  assert (st c2 = st c) as Hst
    by exact (cleanup_st false (with_reconnecting true c)).
  assert (closed (trace c2) = closed (trace c) ++ held (conn (st c))) as Hcl
    by apply (cleanup_closed false (with_reconnecting true c)).
  assert (slept (trace c2) = slept (trace c)) as Hsl.
  { unfold slept. apply (grows_omap _ KSlept [KClosed; KCancelled]); [|kinds|done].
    by intros [| | | | | | |[]]. }
  assert (attempts (trace c2) = attempts (trace c)) as Hat
    by (apply (grows_attempts [KClosed; KCancelled]); [kinds|done]).
  set (c3 := if ReconnectDelay (config c2) <? 10 * second
             then with_config (with_ReconnectDelay (25 * second) (config c2)) c2
             else c2).
  assert (Retries (config c3) = Retries (config c)
          ∧ st c3 = st c2 ∧ trace c3 = trace c2
          ∧ ReconnectDelay (config c3) = floored (ReconnectDelay (config c)))
    as (HR & S3 & T3 & D3).
  { subst c3. unfold floored. rewrite <- Hg.
    by destruct (ReconnectDelay (config c2) <? 10 * second). }
  assert ((Retries (config c3) <? 1) = true) as Hlt
    by (rewrite HR; by apply Z.ltb_lt).
  rewrite Hlt. cbn [andb negb mbind outcome_bind].
  exists (with_reconnecting false c3). split; [reflexivity|].
  change (slept (trace c3) = slept (trace c)
          ∧ attempts (trace c3) = attempts (trace c)
          ∧ closed (trace c3) = closed (trace c) ++ held (conn (st c))
          ∧ ReconnectDelay (config c3) = floored (ReconnectDelay (config c))
          ∧ st c3 = st c).
  rewrite T3, S3. by split_and!.
Qed.

(** [gopher] with no retries, and the client made from it. *)
Definition no_retries : Config :=
  mkConfig "irc.example.org" 6667 EmptyString "gopher" "gopher" EmptyString
           None false 0 false 0.

Lemma reconnect_without_retries_witness :
  ∃ c', reconnect (world true) false (New no_retries 0)
        = Done (c', Some ErrDisconnected)
        ∧ slept (trace c') = slept (trace (New no_retries 0))
        ∧ attempts (trace c') = attempts (trace (New no_retries 0))
        ∧ closed (trace c')
          = closed (trace (New no_retries 0)) ++ held (conn (st (New no_retries 0)))
        ∧ ReconnectDelay (config c')
          = floored (ReconnectDelay (config (New no_retries 0)))
        ∧ st c' = st (New no_retries 0).
Proof.
  apply (reconnect_without_retries (world true) (New no_retries 0)).
  - reflexivity.
  - vm_compute. reflexivity.
Defined.

(** The loop of [reconnect] after its one [Connect] has failed: it only
    waits.  It runs [Retries - tries] rounds (none when that is not
    positive), each one wait and one increment of [tries]; it logs no
    connection attempt and leaves the session alone. *)
Theorem retry_loop_only_waits (e : error) (c : Client) :
  ∃ c', retry_loop (Z.to_nat (Retries (config c) - tries c)) (Some e) c = Done c'
        ∧ tries c' = Z.max (tries c) (Retries (config c))
        ∧ attempts (trace c') = attempts (trace c)
        ∧ Z.of_nat (length (slept (trace c')))
          = Z.of_nat (length (slept (trace c)))
            + Z.max 0 (Retries (config c) - tries c)
        ∧ st c' = st c.
Proof.
  destruct (retry_loop_total (Z.to_nat (Retries (config c) - tries c)) (Some e) c)
    as [c' H]; [lia|].
  exists c'. split; [done|].
  pose proof (retry_loop_rounds _ _ _ _ H) as (T & A & S').
  apply retry_loop_Done in H as (Hst & _).
  split_and!; [done|done|lia|done].
Qed.

(** *** The status queries on reachable clients *)








(** *** Sending *)

(** A [Send] that returns has handed exactly its event to the encoder of
    the session and returns the encoder's answer; it has first waited
    the delay of the rate limiter, unless [AllowFlood] is set, and it has
    stamped the session with the time of the write. *)
Theorem Send_hands_event_to_encoder (E : Env) (ev : Event) (c c' : Client)
    (r : option error) :
  Send E ev c = Done (c', r) →
  ∃ w, writer (st c) = Some w
       ∧ sent (trace c') = sent (trace c) ++ [ev]
       ∧ now c' = now c + (if AllowFlood (config c) then 0
                           else Z.max 0 (rate E (st c) ev))
       ∧ slept (trace c')
         = slept (trace c) ++ (if AllowFlood (config c) then []
                               else [rate E (st c) ev])
       ∧ lastWrite (st c') = now c'
       ∧ r = encode E w ev (now c').
Proof.
  unfold Send, write. intros H.
  destruct (AllowFlood (config c)).
  - destruct (writer (st c)) as [w|] eqn:Hw;
      [|by destruct (Sensitive ev); cbn in H; rewrite Hw in H].
    exists w. split; [done|].
    destruct (Sensitive ev); cbn in H; rewrite Hw in H;
      injection H as <- <-; cbn; unfold sent, slept;
      rewrite ?omap_app; cbn; rewrite ?app_nil_r, ?Z.add_0_r; done.
  - destruct (writer (st c)) as [w|] eqn:Hw;
      [|by destruct (Sensitive ev); cbn in H; rewrite Hw in H].
    exists w. split; [done|].
    destruct (Sensitive ev); cbn in H; rewrite Hw in H;
      injection H as <- <-; cbn; unfold sent, slept;
      rewrite ?omap_app; cbn; rewrite ?app_nil_r; done.
Qed.

(** What [online] looks like after a PING has been sent. *)
Definition pinged : Client :=
  match Send (world true) (event "PING" ["x"] EmptyString) online with
  | Done (c, _) => c
  | _ => online
  end.

Lemma Send_ping : Send (world true) (event "PING" ["x"] EmptyString) online
                  = Done (pinged, None).
Proof. vm_compute. reflexivity. Defined.

Lemma Send_hands_event_to_encoder_witness :
  ∃ w, writer (st online) = Some w
       ∧ sent (trace pinged)
         = sent (trace online) ++ [event "PING" ["x"] EmptyString]
       ∧ now pinged
         = now online + (if AllowFlood (config online) then 0
                         else Z.max 0 (rate (world true) (st online)
                                         (event "PING" ["x"] EmptyString)))
       ∧ slept (trace pinged)
         = slept (trace online)
             ++ (if AllowFlood (config online) then []
                 else [rate (world true) (st online)
                         (event "PING" ["x"] EmptyString)])
       ∧ lastWrite (st pinged) = now pinged
       ∧ None = encode (world true) w (event "PING" ["x"] EmptyString) (now pinged).
Proof.
  exact (Send_hands_event_to_encoder (world true) _ online pinged None Send_ping).
Defined.

(** A sensitive event is sent without a line in the debug log; any other
    event is logged once, before it reaches the encoder. *)
Theorem write_logs_unless_sensitive (E : Env) (ev : Event) (c c' : Client)
    (r : option error) :
  write E ev c = Done (c', r) →
  ∃ w, writer (st c) = Some w
       ∧ trace c' = trace c ++ (if Sensitive ev then []
                                else [Logged (LogSent ev)])
                      ++ [Encoded w ev].
Proof.
  unfold write. intros H.
  destruct (writer (st c)) as [w|] eqn:Hw;
    [|by destruct (Sensitive ev); cbn in H; rewrite Hw in H].
  exists w. split; [done|].
  destruct (Sensitive ev); cbn in H; rewrite Hw in H; injection H as <- <-; cbn;
    by rewrite <- ?app_assoc.
Qed.

Lemma write_logs_unless_sensitive_witness :
  ∃ w, writer (st online) = Some w
       ∧ trace (emit (Encoded 7 (mkEvent "OPER" ["u"; "p"] EmptyString true))
                     (with_st (with_lastWrite (now online) (st online)) online))
         = trace online
             ++ (if Sensitive (mkEvent "OPER" ["u"; "p"] EmptyString true)
                 then [] else [Logged (LogSent (mkEvent "OPER" ["u"; "p"] EmptyString true))])
             ++ [Encoded w (mkEvent "OPER" ["u"; "p"] EmptyString true)].
Proof.
  apply (write_logs_unless_sensitive (world true)
           (mkEvent "OPER" ["u"; "p"] EmptyString true) online _ None).
  vm_compute. reflexivity.
Defined.

(** *** quit and Stop *)

Lemma light_grows_cancelled (c c' : Client) :
  light c c' → grows wire c c' →
  cancelled (trace c') = cancelled (trace c)
  ∧ closeRead c' = closeRead c ∧ closeExec c' = closeExec c.
Proof.
  intros L G. destruct (ctl_fields c c' (light_ctl c c' L)) as (_ & Hr & He & _).
  split_and!; [|done|done].
  apply (grows_cancelled wire); [kinds|done].
Qed.

(** [quit] puts the DISCONNECTED event with the server's address on the
    queue, closes the transport and calls the cancel functions behind
    [closeRead] and [closeExec]; it does not clear the session: the
    connected flag and the timestamp are what they were, so
    [IsConnected] answers as before. *)
Theorem quit_leaves_session_flags (E : Env) (b : bool) (c c' : Client) :
  quit E b c = Done c' →
  IsConnected c' = IsConnected c
  ∧ connTime (st c') = connTime (st c)
  ∧ (∀ x, Uptime c' x = Uptime c x ∧ Uptime x c' = Uptime x c)
  ∧ Events c' = Events c ++ [event DISCONNECTED [] (ServerAddr c)]
  ∧ closed (trace c') = closed (trace c) ++ held (conn (st c))
  ∧ closeLoop c' = closeLoop c.
Proof.
  intros H. apply quit_Done in H as (L & _ & Hcl & Hev).
  destruct (light_session c c' L) as (Hc & Ht & _).
  destruct (ctl_fields c c' (light_ctl c c' L)) as (_ & _ & _ & Hl).
  unfold Uptime, IsConnected. rewrite Hc, Ht. by split_and!.
Qed.

(** [online] after [Quit]. *)
Definition left : Client :=
  match quit (world true) true online with
  | Done c => c
  | _ => online
  end.

Lemma quit_online : quit (world true) true online = Done left.
Proof. vm_compute. reflexivity. Defined.

Lemma quit_leaves_session_flags_witness :
  IsConnected left = IsConnected online
  ∧ connTime (st left) = connTime (st online)
  ∧ (∀ x, Uptime left x = Uptime online x ∧ Uptime x left = Uptime x online)
  ∧ Events left = Events online ++ [event DISCONNECTED [] (ServerAddr online)]
  ∧ closed (trace left) = closed (trace online) ++ held (conn (st online))
  ∧ closeLoop left = closeLoop online.
Proof.
  exact (quit_leaves_session_flags (world true) true online left quit_online).
Defined.

(** [Stop] sends nothing to the server; it queues DISCONNECTED and then
    STOPPED, and it returns whenever the queue has room for the two; with
    a full queue and nobody taking events off it, it waits for ever. *)
Theorem Stop_queues_two_events (E : Env) (c : Client) :
  ((S (length (Events c)) < eventsCap)%nat →
   ∃ c', Stop E c = Done c'
         ∧ Events c' = Events c ++ [event DISCONNECTED [] (ServerAddr c);
                                    event STOPPED [] (ServerAddr c)]
         ∧ sent (trace c') = sent (trace c)
         ∧ IsConnected c' = IsConnected c)
  ∧ ((eventsCap <= length (Events c))%nat → Stop E c = Blocks).
Proof.
  split.
  - intros Hroom. destruct (Stop_total E c Hroom) as [c' H]. exists c'.
    split; [done|]. unfold Stop in H.
    destruct (quit E false c) as [c1| | |] eqn:HQ; try done.
    cbn [mbind outcome_bind] in H.
    pose proof (quit_Done E false c c1 HQ) as (L1 & K1 & _ & Hev).
    pose proof (chan_send_Done _ _ _ H) as [-> _].
    assert (grows [KClosed; KCancelled] c c1) as G.
    { unfold quit in HQ. cbn [mbind outcome_bind] in HQ.
      destruct (chan_send _ c) as [c0| | |] eqn:H0; try done.
      cbn [mbind outcome_bind] in HQ. injection HQ as <-.
      apply chan_send_Done in H0 as [-> _].
      eapply grows_trans; [|apply cleanup_grows]. by apply grows_same. }
    split_and!.
    + cbn. rewrite Hev, <- app_assoc. cbn. do 4 f_equal.
      unfold ServerAddr. by destruct L1 as (_ & _ & -> & _).
    + apply (grows_sent [KClosed; KCancelled]); [kinds|done].
    + change (connected (st c1) = connected (st c)).
      by destruct (light_session c c1 L1) as (-> & _).
  - intros Hfull. unfold Stop, quit, chan_send. cbn [mbind outcome_bind].
    assert ((length (Events c) <? eventsCap)%nat = false) as ->
      by (by apply Nat.ltb_ge).
    done.
Qed.

Lemma Stop_queues_two_events_witness :
  (∃ c', Stop (world true) online = Done c'
         ∧ Events c' = Events online
                         ++ [event DISCONNECTED [] (ServerAddr online);
                             event STOPPED [] (ServerAddr online)]
         ∧ sent (trace c') = sent (trace online)
         ∧ IsConnected c' = IsConnected online)
  ∧ Stop (world true)
      (with_Events (replicate 100 (event "PING" [] EmptyString)) online)
    = Blocks.
Proof.
  split.
  - apply (proj1 (Stop_queues_two_events (world true) online)).
    vm_compute. lia.
  - apply (proj2 (Stop_queues_two_events (world true)
                    (with_Events (replicate 100 (event "PING" [] EmptyString))
                       online))).
    vm_compute. lia.
Defined.

(** *** The command builders *)

Definition TOPIC : string := "TOPIC".
Definition PING : string := "PING".
Definition PONG : string := "PONG".
Definition OPER : string := "OPER".
Definition AWAY : string := "AWAY".
Definition LIST : string := "LIST".

Section Builders.
Context (E : Env).





(** [Client.Topic]: the channel is not checked. *)
Definition Topic (channel message : string) (c : Client)
  : outcome (Client * option error) :=
  Send E (event TOPIC [channel] message) c.



(** [Client.Ping], [Client.Pong], [Client.Oper]. *)
Definition Ping (id : string) (c : Client) : outcome (Client * option error) :=
  Send E (event PING [id] EmptyString) c.
Definition Pong (id : string) (c : Client) : outcome (Client * option error) :=
  Send E (event PONG [id] EmptyString) c.
Definition Oper (user pass : string) (c : Client) : outcome (Client * option error) :=
  Send E (mkEvent OPER [user; pass] EmptyString true) c.



(** [Client.Back] and [Client.Away]. *)
Definition Back (c : Client) : outcome (Client * option error) :=
  Send E (event AWAY [] EmptyString) c.

Definition Away (reason : string) (c : Client) : outcome (Client * option error) :=
  if bool_decide (reason = EmptyString) then Back c
  else Send E (event AWAY [reason] EmptyString) c.

(** The loop [Join] and [List] share, for the command [cmd]; the limit
    is computed from [len(JOIN)] in both. *)
Fixpoint bulk_loop (cmd : string) (chans : list string) (buffer : string)
    (c : Client) : outcome (Client * option error) :=
  let max := maxLength E - len JOIN - 1 in
  match chans with
  | [] => Done (c, None)
  | ch :: rest =>
      if negb (IsValidChannel E ch) then Done (c, Some (ErrInvalidTarget ch))
      else if max <? len (buffer +:+ "," +:+ ch) then
        '(c1, err) ← Send E (event cmd [buffer] EmptyString) c;
        match err with
        | Some e => Done (c1, Some e)
        | None => bulk_loop cmd rest EmptyString c1
        end
      else
        let buffer' := if len buffer =? 0 then ch else buffer +:+ "," +:+ ch in
        match rest with
        | [] => Send E (event cmd [buffer'] EmptyString) c
        | _ :: _ => bulk_loop cmd rest buffer' c
        end
  end.

(** [Client.List]. *)
Definition List (channels : list string) (c : Client)
  : outcome (Client * option error) :=
  match channels with
  | [] => Send E (event LIST [] EmptyString) c
  | _ :: _ => bulk_loop LIST channels EmptyString c
  end.

Lemma join_loop_bulk (chans : list string) (buffer : string) (c : Client) :
  join_loop E chans buffer c = bulk_loop JOIN chans buffer c.
Proof.
  revert buffer c. induction chans as [|ch rest IH]; intros buffer c; [done|].
  cbn [join_loop bulk_loop]. cbn zeta.
  destruct (negb _); [done|]. destruct (_ <? _).
  - by destruct (Send E _ c) as [[c1 [e|]]| | |]; cbn [mbind outcome_bind].
  - destruct rest; [done|apply IH].
Qed.

(** [strings.Join(l, ",")]. *)
Fixpoint commas (l : list string) : string :=
  match l with
  | [] => EmptyString
  | [a] => a
  | a :: r => a +:+ "," +:+ commas r
  end.

End Builders.

(** *** Joining and listing in bulk *)

Lemma append_assoc (a b d : string) : (a +:+ b) +:+ d = a +:+ (b +:+ d).
Proof.
  induction a as [|x a IH]; [done|].
  change (String x ((a +:+ b) +:+ d) = String x (a +:+ (b +:+ d))).
  by rewrite IH.
Qed.

Lemma len_append (a b : string) : len (a +:+ b) = len a + len b.
Proof.
  unfold len. induction a as [|x a IH].
  { change (Z.of_nat (String.length b) = 0 + Z.of_nat (String.length b)). lia. }
  change (String.length (String x a +:+ b)) with (S (String.length (a +:+ b))).
  change (String.length (String x a)) with (S (String.length a)). lia.
Qed.

Lemma len_nonneg (a : string) : 0 <= len a.
Proof. unfold len. lia. Qed.

Lemma len_zero (a : string) : len a = 0 → a = EmptyString.
Proof. destruct a; [done|]. unfold len. cbn. lia. Qed.

Lemma len_commas_cons (a b : string) (r : list string) :
  len (commas (a :: b :: r)) = len a + 1 + len (commas (b :: r)).
Proof.
  change (commas (a :: b :: r)) with (a +:+ "," +:+ commas (b :: r)).
  rewrite !len_append. change (len ",") with 1. lia.
Qed.

Section BulkTheory.
Context (E : Env).

Definition all_valid (chans : list string) : Prop :=
  Forall (fun ch => IsValidChannel E ch = true) chans.

(** The limit [Join] and [List] compare the buffer with. *)
Definition bulk_max : Z := maxLength E - len JOIN - 1.


Lemma bulk_loop_last (cmd : string) (pre : list string) :
  ∀ (buffer : string) (c : Client),
    len buffer ≠ 0 → all_valid pre → pre ≠ [] →
    len (buffer +:+ "," +:+ commas pre) <= bulk_max →
    bulk_loop E cmd pre buffer c
    = Send E (event cmd [buffer +:+ "," +:+ commas pre] EmptyString) c.
Proof.
  induction pre as [|ch pre IH]; intros buffer c Hb Hv Hne Hfit; [done|].
  apply Forall_cons in Hv as [Hch Hv].
  cbn [bulk_loop]. cbn zeta. rewrite Hch. cbn [negb]. fold bulk_max.
  destruct pre as [|ch2 pre].
  - cbn [commas] in *.
    assert ((bulk_max <? len (buffer +:+ "," +:+ ch)) = false) as ->
      by (by apply Z.ltb_ge).
    by assert ((len buffer =? 0) = false) as -> by (by apply Z.eqb_neq).
  - assert (len (buffer +:+ "," +:+ ch) <= bulk_max) as Hstep.
    { revert Hfit. rewrite !len_append, len_commas_cons.
      pose proof (len_nonneg (commas (ch2 :: pre))). lia. }
    assert ((bulk_max <? len (buffer +:+ "," +:+ ch)) = false) as ->
      by (by apply Z.ltb_ge).
    assert ((len buffer =? 0) = false) as -> by (by apply Z.eqb_neq).
    rewrite IH; try done.
    + do 3 f_equal. change (commas (ch :: ch2 :: pre))
        with (ch +:+ "," +:+ commas (ch2 :: pre)).
      by rewrite !append_assoc.
    + rewrite !len_append. pose proof (len_nonneg buffer).
      pose proof (len_nonneg ch). change (len ",") with 1. lia.
    + revert Hfit. change (commas (ch :: ch2 :: pre))
        with (ch +:+ "," +:+ commas (ch2 :: pre)).
      by rewrite !append_assoc.
Qed.

Lemma bulk_fits (cmd : string) (a : string) (tl : list string) (c : Client) :
  all_valid (a :: tl) → a ≠ EmptyString →
  len (commas (a :: tl)) < bulk_max →
  bulk_loop E cmd (a :: tl) EmptyString c
  = Send E (event cmd [commas (a :: tl)] EmptyString) c.
Proof.
  intros Hv Ha Hfit. apply Forall_cons in Hv as [Hch Hv].
  assert (len a ≠ 0) as Hlen by (intros H0; by apply len_zero in H0).
  cbn [bulk_loop]. cbn zeta. rewrite Hch. cbn [negb]. fold bulk_max.
  change (len EmptyString =? 0) with true. cbn iota.
  destruct tl as [|b tl].
  - cbn [commas] in *.
    assert ((bulk_max <? len (EmptyString +:+ "," +:+ a)) = false) as ->; [|done].
    apply Z.ltb_ge. rewrite !len_append. change (len EmptyString) with 0.
    change (len ",") with 1. lia.
  - rewrite len_commas_cons in Hfit. pose proof (len_nonneg (commas (b :: tl))).
    assert ((bulk_max <? len (EmptyString +:+ "," +:+ a)) = false) as ->.
    { apply Z.ltb_ge. rewrite !len_append. change (len EmptyString) with 0.
      change (len ",") with 1. lia. }
    rewrite bulk_loop_last; try done.
    rewrite !len_append. change (len ",") with 1. lia.
Qed.






End BulkTheory.

(** Ten channels of 50 bytes each. *)
Fixpoint xs (n : nat) : string :=
  match n with
  | O => EmptyString
  | S n' => String "x" (xs n')
  end.

Definition room (d : ascii) : string := String "#" (String d (xs 48)).

Definition eight_rooms : list string :=
  room <$> ["1"; "2"; "3"; "4"; "5"; "6"; "7"; "8"]%char.

Lemma rooms_valid (l : list ascii) : all_valid (world true) (room <$> l).
Proof. induction l as [|d l IH]; [constructor|]. by constructor. Defined.

(** [Join] and [List] of channels whose comma-separated list fits under
    the limit send one event, with that list as its only parameter. *)
Theorem Join_one_line_when_it_fits (E : Env) (a : string) (tl : list string)
    (c : Client) :
  all_valid E (a :: tl) → a ≠ EmptyString →
  len (commas (a :: tl)) < bulk_max E →
  Join E (a :: tl) c = Send E (event JOIN [commas (a :: tl)] EmptyString) c
  ∧ List E (a :: tl) c = Send E (event LIST [commas (a :: tl)] EmptyString) c.
Proof.
  intros Hv Ha Hfit. split.
  - unfold Join. rewrite join_loop_bulk. by apply bulk_fits.
  - unfold List. by apply bulk_fits.
Qed.

Lemma Join_one_line_when_it_fits_witness :
  Join (world true) (room "0" :: eight_rooms) online
  = Send (world true)
      (event JOIN [commas (room "0" :: eight_rooms)] EmptyString) online
  ∧ List (world true) (room "0" :: eight_rooms) online
    = Send (world true)
        (event LIST [commas (room "0" :: eight_rooms)] EmptyString) online.
Proof.
  apply (Join_one_line_when_it_fits (world true) (room "0") eight_rooms online).
  - exact (rooms_valid ("0" :: ["1"; "2"; "3"; "4"; "5"; "6"; "7"; "8"])%char).
  - discriminate.
  - vm_compute. reflexivity.
Defined.



(** *** Single-target builders *)




(** [Part] and [PartMessage] of a valid channel send a JOIN event with
    the channel as its parameter; [Part] drops its message. *)
Theorem Part_sends_JOIN (E : Env) (channel message : string) (c : Client) :
  IsValidChannel E channel = true →
  Part E channel message c = Send E (event JOIN [channel] EmptyString) c
  ∧ PartMessage E channel message c = Send E (event JOIN [channel] message) c
  ∧ ∀ c' r, Part E channel message c = Done (c', r) →
            sent (trace c') = sent (trace c) ++ [event JOIN [channel] EmptyString].
Proof.
  intros H. unfold Part, PartMessage. rewrite H. cbn [negb].
  split_and!; [done|done|].
  intros c' r HS. by apply Send_Done in HS as (_ & _ & HS & _).
Qed.

Lemma Part_sends_JOIN_witness :
  Part (world true) "#go" "bye" online
  = Send (world true) (event JOIN ["#go"] EmptyString) online
  ∧ PartMessage (world true) "#go" "bye" online
    = Send (world true) (event JOIN ["#go"] "bye") online
  ∧ ∀ c' r, Part (world true) "#go" "bye" online = Done (c', r) →
            sent (trace c') = sent (trace online) ++ [event JOIN ["#go"] EmptyString].
Proof.
  apply (Part_sends_JOIN (world true) "#go" "bye" online). reflexivity.
Defined.

(** [Nick] writes the new nickname into the session before it sends the
    NICK event, so the session holds the name whatever the encoder
    answers. *)
Theorem Nick_recorded_before_send (E : Env) (name : string) (c c' : Client)
    (r : option error) :
  IsValidNick E name = true →
  SetNick E name c = Done (c', r) →
  nick (st c') = name
  ∧ sent (trace c') = sent (trace c) ++ [event NICK [name] EmptyString]
  ∧ connected (st c') = connected (st c).
Proof.
  intros Hv. unfold SetNick. rewrite Hv. cbn [negb]. unfold Send, write.
  intros H.
  destruct (AllowFlood _); destruct (writer _) as [w|] eqn:Hw;
    cbn in H; rewrite ?Hw in H; try done;
    injection H as <- <-; cbn; unfold sent; rewrite ?omap_app; cbn;
    by rewrite ?app_nil_r.
Qed.

(** A world whose encoder always fails. *)
Definition broken_pipe : Env :=
  mkEnv plain_name plain_name channel_name 510
        (fun _ _ _ => inl 7%nat)
        (fun _ _ _ => Some (ErrExternal 2))
        (fun _ _ => 2)
        (fun _ _ => None).

Definition renamed : Client :=
  match SetNick broken_pipe "ferris" online with
  | Done (c, _) => c
  | _ => online
  end.

Lemma SetNick_broken_pipe :
  SetNick broken_pipe "ferris" online = Done (renamed, Some (ErrExternal 2)).
Proof. vm_compute. reflexivity. Defined.

Lemma Nick_recorded_before_send_witness :
  nick (st renamed) = "ferris"
  ∧ sent (trace renamed)
    = sent (trace online) ++ [event NICK ["ferris"] EmptyString]
  ∧ connected (st renamed) = connected (st online).
Proof.
  apply (Nick_recorded_before_send broken_pipe "ferris" online renamed
           (Some (ErrExternal 2))).
  - reflexivity.
  - exact SetNick_broken_pipe.
Defined.

(** *** More on Connect and reconnect *)

(** The handshake writes stop at the first one the encoder refuses.
    When [write_all] returns an error, it is the encoder's answer to the
    event at some index [k]; the encoder accepted every event before
    [k]; and the events handed over are those up to and including the
    one at [k], nothing after it.  When it returns no error, the encoder
    accepted every event and all were handed over, in order. *)
Theorem write_all_stops_at_first_error (E : Env) (evs : list Event)
    (c c' : Client) (r : option error) :
  write_all E evs c = Done (c', r) →
  match r with
  | None =>
      sent (trace c') = sent (trace c) ++ evs
      ∧ ∀ ev, ev ∈ evs →
              ∃ w, writer (st c) = Some w ∧ encode E w ev (now c) = None
  | Some e =>
      ∃ k ev w,
        evs !! k = Some ev
        ∧ writer (st c) = Some w
        ∧ encode E w ev (now c) = Some e
        ∧ (∀ i ev', (i < k)%nat → evs !! i = Some ev' →
                    encode E w ev' (now c) = None)
        ∧ sent (trace c') = sent (trace c) ++ take (S k) evs
  end.
Proof.
  revert c. induction evs as [|ev rest IH]; intros c; cbn [write_all].
  - intros [= <- <-]. rewrite app_nil_r. split; [done|].
    intros ev Hin. by apply elem_of_nil in Hin.
  - destruct (write E ev c) as [[c1 e1]| | |] eqn:Hw; try done.
    cbn [mbind outcome_bind].
    apply write_Done in Hw as (L & _ & Hs & _ & Hn & w & Hw & He).
    destruct (light_session c c1 L) as (_ & _ & Hw1 & _).
    destruct e1 as [e|].
    + intros [= <- <-]. exists 0%nat, ev, w.
      split_and!; [done|done|done|intros i ev' Hi; lia|by rewrite Hs].
    + intros H. apply IH in H. destruct r as [e|].
      * destruct H as (k & evk & w' & Hk & Hw' & Hek & Hbefore & H).
        rewrite Hw1, Hw in Hw'. injection Hw' as <-. rewrite Hn in Hek.
        exists (S k), evk, w. split_and!; [done|done|done| |].
        -- intros [|i] ev' Hi Hev'.
           ++ cbn in Hev'. injection Hev' as <-. done.
           ++ cbn in Hev'. rewrite <- Hn. apply (Hbefore i); [lia|done].
        -- rewrite H, Hs, <- app_assoc. done.
      * destruct H as (H & Hall). split.
        -- rewrite H, Hs, <- app_assoc. done.
        -- intros ev' Hin. exists w. split; [done|].
           apply elem_of_cons in Hin as [->|Hin]; [done|].
           destruct (Hall ev' Hin) as (w' & Hw' & He').
           rewrite Hw1, Hw in Hw'. injection Hw' as <-.
           by rewrite <- Hn.
Qed.

(** A world whose encoder refuses every USER event and nothing else. *)
Definition no_user : Env :=
  mkEnv plain_name plain_name channel_name 510
        (fun _ _ _ => inl 7%nat)
        (fun _ ev _ => if decide (Command ev = USER)
                       then Some (ErrExternal 2) else None)
        (fun _ _ => 2)
        (fun _ _ => None).

(** The handshake of [online] in that world, followed by one more
    event. *)
Definition greeting : list Event :=
  (connectMessages online).2 ++ [event PING ["x"] EmptyString].

Definition cut_short : Client :=
  match write_all no_user greeting online with
  | Done (c, _) => c
  | _ => online
  end.

Lemma write_all_no_user :
  write_all no_user greeting online = Done (cut_short, Some (ErrExternal 2)).
Proof. vm_compute. reflexivity. Defined.

Lemma write_all_stops_at_first_error_witness :
  ∃ k ev w,
    greeting !! k = Some ev
    ∧ writer (st online) = Some w
    ∧ encode no_user w ev (now online) = Some (ErrExternal 2)
    ∧ (∀ i ev', (i < k)%nat → greeting !! i = Some ev' →
                encode no_user w ev' (now online) = None)
    ∧ sent (trace cut_short) = sent (trace online) ++ take (S k) greeting.
Proof.
  exact (write_all_stops_at_first_error no_user greeting online cut_short
           (Some (ErrExternal 2)) write_all_no_user).
Defined.

Lemma invalid_config_delay (E : Env) (g : Config) (d : Z) :
  invalid_config E (with_ReconnectDelay d g) ↔ invalid_config E g.
Proof. done. Qed.

(** A [reconnect] that gets past its gate (it is remote-invoked, or
    [Retries] is at least 1) with a configuration that passes the sanity
    checks of [Connect] makes exactly one connection attempt, however
    large [Retries] is and whether the attempt succeeds or not, and waits
    at least once before it. *)
Theorem reconnect_exactly_one_attempt (E : Env) (b : bool) (c c' : Client)
    (r : option error) :
  reconnecting c = false →
  b = true ∨ 1 <= Retries (config c) →
  ¬ invalid_config E (config c) →
  reconnect E b c = Done (c', r) →
  attempts (trace c') = S (attempts (trace c))
  ∧ (length (slept (trace c)) < length (slept (trace c')))%nat.
Proof.
  intros Hrec Hgate Hvalid. unfold reconnect. rewrite Hrec. cbn zeta.
  set (c2 := cleanup false (with_reconnecting true c)).
  set (c3 := if ReconnectDelay (config c2) <? 10 * second
             then with_config (with_ReconnectDelay (25 * second) (config c2)) c2
             else c2).
  assert (config c2 = config c) as Hg2.
  { destruct (light_cleanup false (with_reconnecting true c)) as (_ & _ & Hc & _).
    exact Hc. }
  assert (grows [KClosed; KCancelled] c c3) as G3.
  { apply grows_trans with c2.
    - eapply grows_trans; [|apply cleanup_grows]. by apply grows_same.
    - subst c3. destruct (_ <? _); by apply grows_same. }
  assert (Retries (config c3) = Retries (config c)
          ∧ ¬ invalid_config E (config c3)) as (HR & Hvalid3).
  { subst c3. destruct (ReconnectDelay (config c2) <? 10 * second);
      cbn [config with_config]; rewrite ?invalid_config_delay, Hg2; by split. }
  assert (((Retries (config c3) <? 1) && negb b) = false) as ->.
  { rewrite HR. destruct Hgate as [->|Hge]; [by rewrite andb_false_r|].
    assert ((Retries (config c) <? 1) = false) as -> by (by apply Z.ltb_ge).
    done. }
  set (c4 := emit _ c3). set (c5 := sleep _ c4).
  assert (grows [KClosed; KCancelled; KLogged; KSlept] c c5) as G5.
  { eapply grows_trans; [eapply grows_mono; [|exact G3]; kinds|].
    subst c5. eapply grows_trans; [|apply grows_sleep; kinds].
    apply grows_emit. kinds. }
  assert (length (slept (trace c5)) = S (length (slept (trace c)))) as S5.
  { assert (slept (trace c3) = slept (trace c)) as <-.
    { unfold slept. apply (grows_omap _ KSlept [KClosed; KCancelled]); [|kinds|done].
      by intros [| | | | | | |[]]. }
    subst c5 c4. unfold sleep, emit, slept. cbn.
    rewrite !omap_app, !length_app. cbn. lia. }
  assert (¬ invalid_config E (config c5)) as Hvalid5 by done.
  destruct (Connect E c5) as [[c6 err]| | |] eqn:HC; try done.
  cbn [mbind outcome_bind].
  destruct (retry_loop _ err c6) as [c7| | |] eqn:HL; try done.
  cbn [mbind outcome_bind]. intros H.
  assert (attempts (trace c6) = S (attempts (trace c))
          ∧ (length (slept (trace c5)) <= length (slept (trace c6)))%nat)
    as (A6 & S6).
  { assert (attempts (trace c5) = attempts (trace c)) as <-
      by (apply (grows_attempts [KClosed; KCancelled; KLogged; KSlept]);
          [kinds|done]).
    apply Connect_Done in HC as [(_ & Hinv & _)|(_ & c3' & K3 & A3 & _ & HC)];
      [done|].
    assert (∀ x y ks, grows ks x y →
              (length (slept (trace x)) <= length (slept (trace y)))%nat) as Hmono.
    { intros x y ks (tr & -> & _). unfold slept.
      rewrite omap_app, length_app. lia. }
    destruct K3 as (_ & _ & _ & G3').
    destruct err as [e|].
    - destruct HC as (K & _). split.
      + by rewrite (calm_attempts after_dial c3' c6) by (kinds || done).
      + destruct K as (_ & _ & _ & G).
        etrans; [by eapply Hmono|by eapply Hmono].
    - destruct HC as (c5' & K & -> & _). split.
      + rewrite established_attempts.
        by rewrite (calm_attempts after_dial c3' c5') by (kinds || done).
      + destruct K as (_ & _ & _ & G).
        etrans; [by eapply Hmono|]. etrans; [by eapply Hmono|].
        destruct (established_spec c5') as (_ & _ & _ & _ & -> & _).
        unfold slept. rewrite omap_app, length_app. lia. }
  pose proof (retry_loop_Done _ _ _ _ HL) as (_ & _ & _ & _ & _ & G7 & _).
  assert (attempts (trace c7) = attempts (trace c6)) as A7
    by (apply (grows_attempts [KLogged; KSlept]); [kinds|done]).
  assert (length (slept (trace c6)) <= length (slept (trace c7)))%nat as S7.
  { destruct G7 as (tr & -> & _). unfold slept.
    rewrite omap_app, length_app. lia. }
  destruct err as [e|]; injection H as <- <-.
  - change (attempts (trace (cleanup false c7)) = S (attempts (trace c))
            ∧ (length (slept (trace c))
               < length (slept (trace (cleanup false c7))))%nat).
    rewrite (grows_attempts [KClosed; KCancelled] c7 (cleanup false c7))
      by (kinds || apply cleanup_grows).
    assert (slept (trace (cleanup false c7)) = slept (trace c7)) as ->.
    { unfold slept.
      apply (grows_omap _ KSlept [KClosed; KCancelled]);
        [|kinds|apply cleanup_grows].
      by intros [| | | | | | |[]]. }
    split; [congruence|lia].
  - change (attempts (trace c7) = S (attempts (trace c))
            ∧ (length (slept (trace c)) < length (slept (trace c7)))%nat).
    split; [congruence|lia].
Qed.

Lemma reconnect_exactly_one_attempt_witness :
  attempts (trace gave_up) = S (attempts (trace idle))
  ∧ (length (slept (trace idle)) < length (slept (trace gave_up)))%nat.
Proof.
  apply (reconnect_exactly_one_attempt (world false) true idle gave_up
           (Some (ErrExternal 1))).
  - reflexivity.
  - by left.
  - intros [H|[H|[H|[H|H]]]]; vm_compute in H; discriminate H.
  - exact reconnect_idle_refused.
Defined.

End Supervisor.

(* ===================================================================== *)
(** ** handler.go: more on the registry *)
(* ===================================================================== *)

Module RegistryFacts.
Import GoLib Registry.

Section WithHandler.
Context {Handler : Type}.

Implicit Types (c : Caller Handler) (h : Handler).

(** The upper-case letters stay, the lower-case ones move up. *)
Lemma upper_ascii_idem (a : ascii) : upper_ascii (upper_ascii a) = upper_ascii a.
Proof.
  destruct a as [[] [] [] [] [] [] [] []]; vm_compute; reflexivity.
Qed.

Lemma ToUpper_idem (s : string) : ToUpper (ToUpper s) = ToUpper s.
Proof.
  induction s as [|a s IH]; [done|]. cbn [ToUpper].
  by rewrite upper_ascii_idem, IH.
Qed.

(** Upper-casing keeps a string of ASCII bytes one. *)
Lemma upper_ascii_is_ascii (a : ascii) :
  is_ascii a = true → is_ascii (upper_ascii a) = true.
Proof.
  destruct a as [[] [] [] [] [] [] [] []]; vm_compute; intros H;
    first [reflexivity|discriminate H].
Qed.

Lemma ToUpper_ascii_only (s : string) :
  ascii_only s = true → ascii_only (ToUpper s) = true.
Proof.
  induction s as [|a s IH]; [done|]. cbn [ToUpper ascii_only].
  intros H. apply andb_true_iff in H as [Ha Hs].
  apply andb_true_iff. split; [by apply upper_ascii_is_ascii|by apply IH].
Qed.

(** Adding up the sizes of the buckets whose key is [k]: the size of the
    bucket of [k]. *)
Lemma count_fold (m : gmap string (gmap string Handler)) (k : string) :
  map_fold (fun command (hs : gmap string Handler) total =>
              if decide (command = k) then (total + size hs)%nat else total)
           0%nat m
  = size (handlers_of m k).
Proof.
  induction m as [|i x m Hi Hfold IH] using map_first_key_ind.
  - rewrite map_fold_empty. unfold handlers_of. by rewrite lookup_empty.
  - rewrite map_fold_insert_first_key by done. rewrite IH.
    unfold handlers_of. destruct (decide (i = k)) as [->|Hne].
    + rewrite lookup_insert_eq, Hi. by rewrite map_size_empty.
    + by rewrite lookup_insert_ne.
Qed.

(** For a command of ASCII bytes, [Count] is the size of the bucket of
    the upper-cased command, which is a string of ASCII bytes too, so
    [Count] does not depend on the case of its argument; clearing the
    command brings it to zero, and clearing everything brings [Len] to
    zero. *)
Theorem Count_is_bucket_size c (cmd : string) :
  ascii_only cmd = true →
  ascii_only (ToUpper cmd) = true
  ∧ Count c cmd = size (handlers_of (external c) (ToUpper cmd))
  ∧ Count c (ToUpper cmd) = Count c cmd
  ∧ Count (Clear c cmd) cmd = 0%nat
  ∧ Len (ClearAll c) = 0%nat.
Proof.
  intros Hascii. split; [by apply ToUpper_ascii_only|].
  unfold Count. rewrite !count_fold, ToUpper_idem.
  split_and!; try done.
  - unfold Clear, handlers_of. cbn. by rewrite lookup_delete_eq.
Qed.

(** The bucket a registration goes to. *)
Definition bucket (is_internal : bool) c (cmd : string) : gmap string Handler :=
  handlers_of (if is_internal then internal c else external c) cmd.

Lemma register_buckets (rnd : nat → Z) (is_internal : bool) (cmd : string) h c
    (cmd' : string) :
  let c' := (register rnd is_internal cmd h c).1 in
  let uid := (cuid rnd (ToUpper cmd) 20).2 in
  bucket is_internal c' (ToUpper cmd) = <[uid := h]> (bucket is_internal c (ToUpper cmd))
  ∧ bucket (negb is_internal) c' cmd' = bucket (negb is_internal) c cmd'
  ∧ (cmd' ≠ ToUpper cmd → bucket is_internal c' cmd' = bucket is_internal c cmd').
Proof.
  unfold register, cuid, bucket, handlers_of.
  destruct is_internal; cbn; rewrite lookup_insert_eq;
    (split_and!; [done|done|]); intros Hne; by rewrite lookup_insert_ne.
Qed.

(** A registration, internal or external, of a command of ASCII bytes
    upper-cases the command, returns the command, a colon and the random
    suffix, and from then on [exec] for the upper-cased command runs the
    handler.  It touches no other command and not the other registry. *)
Theorem registered_handler_is_dispatched (rnd : nat → Z) (is_internal : bool)
    (cmd : string) h c :
  ascii_only cmd = true →
  let r := register rnd is_internal cmd h c in
  let uid := (cuid rnd (ToUpper cmd) 20).2 in
  r.2 = ToUpper cmd +:+ ":" +:+ uid
  ∧ mkExecStack h uid ∈ exec_stack r.1 (ToUpper cmd)
  ∧ (∀ cmd', cmd' ≠ ToUpper cmd → exec_stack r.1 cmd' = exec_stack c cmd')
  ∧ (if is_internal then external r.1 = external c
     else internal r.1 = internal c).
Proof.
  intros _. cbn zeta. split_and!.
  - unfold register, cuid. by destruct is_internal.
  - unfold exec_stack, register, cuid. apply elem_of_app.
    destruct is_internal; cbn; [left|right]; rewrite lookup_insert_eq;
      apply stack_of_lookup; by rewrite lookup_insert_eq.
  - intros cmd' Hne. unfold exec_stack, register, cuid.
    destruct is_internal; cbn; by rewrite lookup_insert_ne.
  - unfold register, cuid. by destruct is_internal.
Qed.

(** For a command of ASCII bytes: an external registration under a
    suffix the command does not have yet adds one to [Count]; under a
    suffix it already has (a collision of the random suffix) it replaces
    the earlier handler and [Count] stays.  An internal registration
    never changes [Count]. *)
Theorem register_counts (rnd : nat → Z) (cmd : string) h c :
  ascii_only cmd = true →
  let uid := (cuid rnd (ToUpper cmd) 20).2 in
  let old := handlers_of (external c) (ToUpper cmd) !! uid in
  Count (register rnd false cmd h c).1 cmd
  = (if old is Some _ then Count c cmd else S (Count c cmd))
  ∧ handlers_of (external (register rnd false cmd h c).1) (ToUpper cmd) !! uid
    = Some h
  ∧ Count (register rnd true cmd h c).1 cmd = Count c cmd.
Proof.
  intros _. cbn zeta.
  unfold Count. rewrite !count_fold.
  destruct (register_buckets rnd false cmd h c (ToUpper cmd)) as (Hb & _).
  destruct (register_buckets rnd true cmd h c (ToUpper cmd)) as (_ & Hi & _).
  unfold bucket in Hb, Hi. cbn [negb] in Hi. rewrite Hb, Hi.
  split_and!; [|by rewrite lookup_insert_eq|done].
  destruct (handlers_of (external c) (ToUpper cmd) !! _) as [h0|] eqn:Hold.
  - rewrite <- (insert_id _ _ _ Hold) at 2.
    by rewrite !map_size_insert, Hold.
  - by rewrite map_size_insert_None.
Qed.

(** [Clear] of a command of ASCII bytes drops the external handlers of
    the upper-cased command and nothing else: [exec] for that command
    still runs the internal ones, and every other command is dispatched
    as before.  [ClearAll] and [clearInternal] empty one registry and
    keep the other. *)
Theorem Clear_drops_external_only c (cmd : string) :
  ascii_only cmd = true →
  exec_stack (Clear c cmd) (ToUpper cmd) = stack_of (internal c !! ToUpper cmd)
  ∧ (∀ cmd', cmd' ≠ ToUpper cmd →
       exec_stack (Clear c cmd) cmd' = exec_stack c cmd')
  ∧ (∀ cmd', exec_stack (ClearAll c) cmd' = stack_of (internal c !! cmd'))
  ∧ (∀ cmd', exec_stack (clearInternal c) cmd' = stack_of (external c !! cmd')).
Proof.
  intros _. unfold exec_stack, Clear, ClearAll, clearInternal. cbn. split_and!.
  - rewrite lookup_delete_eq. cbn. by rewrite app_nil_r.
  - intros cmd' Hne. by rewrite lookup_delete_ne.
  - intros cmd'. rewrite lookup_empty. cbn. by rewrite app_nil_r.
  - intros cmd'. by rewrite lookup_empty.
Qed.

(** The stack [exec] builds has one entry for each handler of the
    command, the internal ones first; a command nobody registered gets an
    empty stack. *)
Theorem exec_stack_size c (command : string) :
  length (exec_stack c command)
  = (size (handlers_of (internal c) command)
     + size (handlers_of (external c) command))%nat
  ∧ (internal c !! command = None → external c !! command = None →
     exec_stack c command = []).
Proof.
  unfold exec_stack, handlers_of, stack_of. split.
  - rewrite length_app.
    destruct (internal c !! command), (external c !! command);
      rewrite ?length_fmap, ?length_map_to_list, ?map_size_empty; cbn; lia.
  - by intros -> ->.
Qed.

(** The random suffix: [n] bytes, each one a letter of [letterBytes]. *)
Definition is_letter (a : ascii) : bool :=
  let k := nat_of_ascii a in
  (((65 <=? k) && (k <=? 90)) || ((97 <=? k) && (k <=? 122)))%nat.

Lemma letter_is_letter (r : Z) : is_letter (letter r) = true.
Proof.
  unfold letter.
  assert (0 <= r mod len letterBytes < 52) as Hr
    by (apply Z.mod_pos_bound; vm_compute; reflexivity).
  assert (∃ k, Z.to_nat (r mod len letterBytes) = k ∧ (k < 52)%nat) as (k & -> & Hk)
    by (eexists; split; [reflexivity|lia]).
  do 52 (destruct k as [|k]; [vm_compute; reflexivity|]). lia.
Qed.

Lemma string_of_bytes_length (l : list ascii) :
  String.length (string_of_bytes l) = length l.
Proof. induction l as [|a l IH]; [done|]. cbn. by rewrite IH. Qed.

Fixpoint bytes_of (s : string) : list ascii :=
  match s with
  | EmptyString => []
  | String a r => a :: bytes_of r
  end.

Lemma bytes_of_string_of_bytes (l : list ascii) : bytes_of (string_of_bytes l) = l.
Proof. induction l as [|a l IH]; [done|]. cbn. by rewrite IH. Qed.

(** [cuid] returns the command, a colon and the suffix, and the suffix
    alone; the suffix has the length asked for and holds ASCII letters
    only, whatever the random source draws. *)
Theorem cuid_shape (rnd : nat → Z) (cmd : string) (n : nat) :
  (cuid rnd cmd n).1 = cmd +:+ ":" +:+ (cuid rnd cmd n).2
  ∧ String.length (cuid rnd cmd n).2 = n
  ∧ Forall (fun a => is_letter a = true) (bytes_of (cuid rnd cmd n).2).
Proof.
  unfold cuid. cbn [fst snd]. split_and!.
  - done.
  - by rewrite string_of_bytes_length, length_fmap, length_seq.
  - rewrite bytes_of_string_of_bytes. apply Forall_fmap, Forall_forall.
    intros i _. apply letter_is_letter.
Qed.

End WithHandler.

(** A registry with one internal and one external handler for PRIVMSG. *)
Definition two_handlers : Caller nat :=
  (register (fun i => Z.of_nat i) false "privmsg" 7%nat
     (register (fun i => 51 - Z.of_nat i) true "PRIVMSG" 3%nat newCaller).1).1.

Lemma registered_handler_is_dispatched_witness :
  (register (fun i => Z.of_nat i) false "privmsg" 7%nat newCaller).2
  = "PRIVMSG:abcdefghijklmnopqrst"
  ∧ mkExecStack 7%nat "abcdefghijklmnopqrst"
      ∈ exec_stack (register (fun i => Z.of_nat i) false "privmsg" 7%nat newCaller).1
          "PRIVMSG"
  ∧ exec_stack (register (fun i => Z.of_nat i) false "privmsg" 7%nat newCaller).1
      "NOTICE"
    = exec_stack (newCaller (Handler := nat)) "NOTICE".
Proof.
  pose proof (registered_handler_is_dispatched (fun i => Z.of_nat i) false
                "privmsg" 7%nat newCaller eq_refl) as (H1 & H2 & H3 & _).
  split_and!; [exact H1|exact H2|].
  apply H3. discriminate.
Defined.

Lemma Clear_drops_external_only_witness :
  stackHandler <$> exec_stack (Clear two_handlers "privmsg") "PRIVMSG" = [3%nat]
  ∧ exec_stack (Clear two_handlers "notice") "PRIVMSG"
    = exec_stack two_handlers "PRIVMSG".
Proof.
  pose proof (Clear_drops_external_only two_handlers "privmsg" eq_refl)
    as (H1 & _).
  pose proof (Clear_drops_external_only two_handlers "notice" eq_refl)
    as (_ & H2 & _).
  split.
  - change (ToUpper "privmsg") with "PRIVMSG" in H1. rewrite H1.
    vm_compute. reflexivity.
  - apply H2. discriminate.
Defined.

Lemma Count_is_bucket_size_witness :
  Count two_handlers "privmsg" = 1%nat
  ∧ Count two_handlers "PRIVMSG" = Count two_handlers "privmsg"
  ∧ Count (Clear two_handlers "privmsg") "privmsg" = 0%nat.
Proof.
  pose proof (Count_is_bucket_size two_handlers "privmsg" eq_refl)
    as (_ & H1 & H2 & H3 & _).
  split_and!; [|exact H2|exact H3].
  rewrite H1. vm_compute. reflexivity.
Defined.

Lemma register_counts_witness :
  Count (register (fun i => Z.of_nat i) false "privmsg" 9%nat two_handlers).1
        "privmsg"
  = Count two_handlers "privmsg"
  ∧ Count (register (fun i => 51 - Z.of_nat i) false "privmsg" 9%nat
             two_handlers).1 "privmsg"
    = S (Count two_handlers "privmsg")
  ∧ Count (register (fun i => Z.of_nat i) true "privmsg" 9%nat two_handlers).1
          "privmsg"
    = Count two_handlers "privmsg".
Proof.
  pose proof (register_counts (fun i => Z.of_nat i) "privmsg" 9%nat
                two_handlers eq_refl) as (H1 & _ & H3).
  pose proof (register_counts (fun i => 51 - Z.of_nat i) "privmsg" 9%nat
                two_handlers eq_refl) as (H2 & _).
  cbn zeta in H1, H2.
  split_and!; [|exact H2|exact H3].
  exact H1.
Defined.

Lemma exec_stack_size_witness :
  length (exec_stack two_handlers "PRIVMSG") = 2%nat
  ∧ exec_stack two_handlers "NOTICE" = [].
Proof.
  pose proof (exec_stack_size two_handlers "PRIVMSG") as (H1 & _).
  pose proof (exec_stack_size two_handlers "NOTICE") as (_ & H2).
  split.
  - rewrite H1. vm_compute. reflexivity.
  - apply H2; vm_compute; reflexivity.
Defined.

End RegistryFacts.

(* ===================================================================== *)
(** ** handler.go: more on what [exec] hands out *)
(* ===================================================================== *)

Module DispatchFacts.
Import Events Dispatch.

(** [exec] starts one goroutine for every entry of its stack, and each
    handler, before anybody has acted, reads the event [exec] was given:
    its command, its parameters, its trailing text and its flag. *)
Theorem exec_hands_every_handler_the_event (H : Type) (stack : list H)
    (event : EventOf (option positive)) (mem : gmap positive (list string))
    (ps : list string) (j : nat) :
  read_params mem (Params event) = Some ps →
  (j < length stack)%nat →
  length (args (launch stack event mem)) = length stack
  ∧ observe j (launch stack event mem)
    = Some (mkEvent (Command event) ps (Trailing event) (Sensitive event)).
Proof.
  intros Hps Hj. split.
  - unfold launch. cbn. by rewrite length_fmap.
  - by apply launch_observe.
Qed.

Lemma exec_hands_every_handler_the_event_witness :
  length (args exec0) = 2%nat
  ∧ observe 1 exec0 = Some (mkEvent "PRIVMSG" ["#chan"] "hi" false).
Proof.
  apply (exec_hands_every_handler_the_event unit [tt; tt] privmsg0 mem0
           ["#chan"] 1).
  - reflexivity.
  - cbn. lia.
Defined.

(** A handler that first gives its argument a parameter slice of its own
    ([e.Params = []string{...}]) and then stores into it is not seen by
    the other handlers: the new array is reachable from its argument
    only. *)
Theorem fresh_slice_is_private (j k i : nat) (l : list string) (s : string)
    (st st1 st2 : ExecState) :
  allocated st →
  k ≠ j →
  step k (SetParams l) st = Some st1 →
  step k (SetParam i s) st1 = Some st2 →
  observe j st2 = observe j st.
Proof.
  intros Hal Hne H1 H2.
  rewrite <- (step_other_observe j k (SetParams l) st st1 Hne eq_refl Hal H1).
  pose proof (step_allocated k (SetParams l) st st1 Hal H1) as Hal1.
  unfold step in H1. destruct (args st !! k) as [e|] eqn:Hk; [|done].
  injection H1 as <-.
  unfold step in H2. cbn [args store] in H2.
  rewrite list_lookup_insert_eq in H2 by (by eapply lookup_lt_Some).
  cbn [Params] in H2. rewrite lookup_insert_eq in H2.
  destruct (i <? length l)%nat; [|done]. injection H2 as <-.
  unfold observe. cbn [args store].
  rewrite list_lookup_insert_ne by done.
  destruct (args st !! j) as [ej|] eqn:Hj; [|done].
  destruct (Params ej) as [q|] eqn:Hq; [|done]. cbn [read_params].
  destruct (Hal j ej q Hj Hq) as [x Hx].
  assert (fresh (dom (store st)) ≠ q) as Hfresh.
  { intros <-. by rewrite fresh_not_allocated in Hx. }
  by rewrite !lookup_insert_ne.
Qed.

Lemma fresh_slice_is_private_witness :
  (step 0 (SetParams ["a"; "b"]) exec0 ≫= step 0 (SetParam 1 "z")) ≫= observe 1
  = observe 1 exec0
  ∧ is_Some (step 0 (SetParams ["a"; "b"]) exec0 ≫= step 0 (SetParam 1 "z")).
Proof.
  destruct (step 0 (SetParams ["a"; "b"]) exec0) as [st1|] eqn:H1;
    [|vm_compute in H1; discriminate H1].
  cbn [mbind option_bind].
  destruct (step 0 (SetParam 1 "z") st1) as [st2|] eqn:H2.
  - split; [|by eexists]. cbn [mbind option_bind].
    apply (fresh_slice_is_private 1 0 1 ["a"; "b"] "z" exec0 st1 st2);
      [|lia|exact H1|exact H2].
    apply (launch_allocated [tt; tt] privmsg0 mem0 privmsg0_allocated).
  - exfalso. vm_compute in H1. injection H1 as <-.
    vm_compute in H2. discriminate H2.
Defined.

End DispatchFacts.
